(** * titidore: the per-guild music queue of main.py

    A shallow embedding of the queue and playback code of [src/main.py]:
    the [music_queues] dictionary, the slash commands [play], [stop],
    [skip] and [volume], the [on_guild_remove] event handler, the
    [play_next_song] coroutine and its [after_playing] callback.

    Modelling conventions.
    - A handler is a function from the state of the bot to the new state
      and the list of effects it performed, in program order.  asyncio is
      single threaded: a coroutine runs without interruption between two
      [await]s, and every handler is taken here to run to completion.
    - The media backend ([ytdl.extract_info]), the opus library and the
      voice gateway ([voice_channel.connect], [voice_client.move_to]) are
      outside the program; they are the fields of [Env].  A call that
      raises is a result [None], or [false] where nothing is returned.
    - A Python value that may be [None] is an [option]; an entry of a
      dictionary is an [Entry], which tells a missing key from a key
      that holds [None].
    - The voice client of discord.py is outside the program as well.  It
      is modelled by the part of its behaviour the program relies on: at
      most one player per client, [play] refuses to start while a player
      is running, and a player that ends, by exhaustion or because [stop]
      was called, invokes the [after] callback it was given (this is the
      only way the [skip] command advances the queue: it calls
      [voice_client.stop()] and nothing else).
    - Calls that the program does not guard individually (sending a
      message, stopping a player, leaving a channel, spawning ffmpeg
      for a stream URL) are taken to succeed. *)

From stdpp Require Import gmap strings list numbers pretty.
From Stdlib Require Import QArith Qcanon.

Local Open Scope Z_scope.

(** ** Data *)

(** An entry of a Python dictionary: the key is absent, or it is present
    with a value, which may be Python's [None]. *)
Inductive Entry (A : Type) :=
| Absent
| Present (v : option A).
Arguments Absent {A}.
Arguments Present {A} v.

(** [d.get(key)] *)
Definition dict_get {A} (e : Entry A) : option A :=
  match e with
  | Absent => None
  | Present v => v
  end.

(** [d.get(key, default)]: the default stands in for a missing key only;
    a stored [None] is returned as it is. *)
Definition dict_get_default {A} (e : Entry A) (default : option A) : option A :=
  match e with
  | Absent => default
  | Present v => v
  end.

(** How an f-string prints a value that may be [None]. *)
Definition py_str (v : option string) : string := default "None"%string v.

(** The info dictionary returned by [ytdl.extract_info], restricted to the
    keys main.py reads. *)
Local Unset Elimination Schemes.
Inductive Info := mkInfo {
  entries : Entry (list Info);
  info_title : Entry string;
  info_duration : Entry Z;
  info_webpage_url : Entry string;
  info_url : Entry string
}.
Local Set Elimination Schemes.

(** The dictionary appended to a guild's queue by [play]; each value is
    what [data.get] returned, [None] included. *)
Record Song := {
  url : option string;
  title : option string;
  duration : option Z;
  requester : string
}.

(** What the program consumes from outside. *)
Record Env := {
  extract_info : string → option Info;   (* None: the call raised *)
  opus_is_loaded : bool;                  (* discord.opus.is_loaded() *)
  can_join : Z → Z → bool                 (* guild, channel: connect() or
                                             move_to() returns, or raises *)
}.

(** [if 'entries' in data: data = data['entries'][0]]; an empty list of
    entries raises IndexError, and [None] cannot be indexed. *)
Definition first_entry (data : Info) : option Info :=
  match entries data with
  | Present (Some (d :: _)) => Some d
  | Present (Some []) => None
  | Present None => None
  | Absent => Some data
  end.

Module YTDLSource.

(** [class YTDLSource(discord.PCMVolumeTransformer)] *)
Record t := {
  data : Info;
  title : option string;       (* data.get('title') *)
  url : option string;         (* data.get('url') *)
  volume : Qc;
  filename : string            (* the stream handed to FFmpegPCMAudio *)
}.

(** The default of [__init__]'s keyword argument [volume=0.5]. *)
Definition default_volume : Qc := Q2Qc (1 # 2).

Definition init (filename : string) (data : Info) (volume : Qc) : t :=
  {| data := data; title := dict_get (info_title data);
     url := dict_get (info_url data);
     volume := volume; filename := filename |}.

(** [from_url(url, stream=True)].  [ytdl.extract_info(None)] raises
    (yt-dlp matches its argument against the URL patterns of its
    extractors); [filename = data['url']] raises KeyError when the key
    is missing, and ffmpeg cannot be spawned on a stream that is
    [None].  The instance is built without a [volume] argument. *)
Definition from_url (env : Env) (u : option string) : option t :=
  match u with
  | None => None
  | Some u =>
      match extract_info env u with
      | None => None
      | Some data =>
          match first_entry data with
          | None => None
          | Some data =>
              match info_url data with
              | Present (Some filename) =>
                  Some (init filename data default_volume)
              | Present None => None
              | Absent => None
              end
          end
      end
  end.

Definition set_volume (v : Qc) (s : t) : t :=
  {| data := data s; title := title s; url := url s;
     volume := v; filename := filename s |}.

End YTDLSource.

(** The player thread of a voice client: the source it streams, the song
    its [after_playing] closure captured, and whether it has ended. *)
Record AudioPlayer := {
  source : YTDLSource.t;
  after : Song;
  ended : bool
}.

(** An invocation of an [after_playing] closure that the player thread
    has requested and that has not run yet. *)
Record Callback := {
  cb_guild : Z;
  cb_song : Song;
  cb_error : option string
}.

Module VoiceClient.

Record t := {
  channel : Z;
  player : option AudioPlayer
}.

Definition is_playing (vc : t) : bool :=
  match player vc with
  | Some p => negb (ended p)
  | None => false
  end.

(** [voice_client.source] *)
Definition current (vc : t) : option YTDLSource.t :=
  source <$> player vc.

End VoiceClient.

(** The state of the bot: the [music_queues] dictionary, the voice client
    of every guild that has one ([guild.voice_client]), and the callbacks
    waiting to run on the event loop. *)
Record World := {
  music_queues : gmap Z (list Song);
  voice_clients : gmap Z VoiceClient.t;
  callbacks : list Callback
}.

(** ** Effects *)

Inductive Message :=
| MsgNotInVoice
| MsgSearching (query : string)
| MsgNowPlaying (t : option string)
| MsgAddedToQueue (t : option string)
| MsgCannotProcess (query : string)
| MsgStopped
| MsgNotConnected
| MsgSkipped
| MsgNothingPlaying
| MsgVolumeRange
| MsgVolumeSet (v : Z)
| MsgNoMusic.

Inductive LogLine :=
| LogAddedToQueue (n : nat)
| LogNoSongs
| LogNoVoiceClient
| LogPlayingNext (s : Song)
| LogSourceError (s : Song)
| LogOpusNotLoaded
| LogNowPlaying (s : Song)
| LogPlayNextError
| LogFinished (s : Song)
| LogPlayerError (s : Song).

Inductive Event :=
| SendMessage (m : Message)        (* interaction.response.send_message *)
| EditResponse (m : Message)       (* interaction.edit_original_response *)
| ExtractInfo (query : option string)  (* ytdl.extract_info: the network call *)
| Connect (g c : Z)                (* voice_channel.connect() *)
| MoveTo (g c : Z)                 (* voice_client.move_to *)
| Play (g : Z) (s : YTDLSource.t)  (* voice_client.play accepted *)
| Stop (g : Z)                     (* voice_client.stop() *)
| Disconnect (g : Z)               (* voice_client.disconnect() *)
| Log (l : LogLine).

(** ** Accessors *)

(** The pending songs of a guild; a guild without an entry has none. *)
Definition pending (g : Z) (w : World) : list Song :=
  default [] (music_queues w !! g).

Definition set_queue (g : Z) (q : list Song) (w : World) : World :=
  {| music_queues := <[g := q]> (music_queues w);
     voice_clients := voice_clients w;
     callbacks := callbacks w |}.

Definition set_voice_client (g : Z) (vc : VoiceClient.t) (w : World) : World :=
  {| music_queues := music_queues w;
     voice_clients := <[g := vc]> (voice_clients w);
     callbacks := callbacks w |}.

Definition is_playing (g : Z) (w : World) : bool :=
  match voice_clients w !! g with
  | Some vc => VoiceClient.is_playing vc
  | None => false
  end.

(** The source of the guild's voice client, if any. *)
Definition current (g : Z) (w : World) : option YTDLSource.t :=
  voice_clients w !! g ≫= VoiceClient.current.

(** ** The voice client, as the program uses it *)

(** The invocation of [after_playing] that a player asks for when it
    stops running. *)
Definition callback_of (g : Z) (err : option string) (p : AudioPlayer) : Callback :=
  {| cb_guild := g; cb_song := after p; cb_error := err |}.

(** [voice_client.stop()]: the player, if any, is discarded; one that was
    still running ends and asks for its callback, with no error, as the
    player thread of discord.py does when it leaves its loop. *)
Definition vc_stop (g : Z) (w : World) : World :=
  match voice_clients w !! g with
  | Some vc =>
      match VoiceClient.player vc with
      | Some p =>
          {| music_queues := music_queues w;
             voice_clients :=
               <[g := {| VoiceClient.channel := VoiceClient.channel vc;
                         VoiceClient.player := None |}]> (voice_clients w);
             callbacks := if ended p then callbacks w
                          else callbacks w ++ [callback_of g None p] |}
      | None => w
      end
  | None => w
  end.

(** [voice_client.disconnect()]: stops whatever still plays and leaves the
    channel; the guild has no voice client afterwards. *)
Definition vc_disconnect (g : Z) (w : World) : World :=
  let w1 := vc_stop g w in
  {| music_queues := music_queues w1;
     voice_clients := delete g (voice_clients w1);
     callbacks := callbacks w1 |}.

(** The running stream of guild [g] comes to its end by itself
    ([err = None]) or dies ([err = Some _]): the player is kept but no
    longer plays, and its callback is requested. *)
Definition stream_ends (g : Z) (err : option string) (w : World) : World :=
  match voice_clients w !! g with
  | Some vc =>
      match VoiceClient.player vc with
      | Some p =>
          if ended p then w
          else
            {| music_queues := music_queues w;
               voice_clients :=
                 <[g := {| VoiceClient.channel := VoiceClient.channel vc;
                           VoiceClient.player :=
                             Some {| source := source p; after := after p;
                                     ended := true |} |}]> (voice_clients w);
               callbacks := callbacks w ++ [callback_of g err p] |}
      | None => w
      end
  | None => w
  end.

(** ** play_next_song *)

(** The body of [play_next_song(guild)], by recursion on the guild's queue
    [q = music_queues[guild.id]]: every call pops the head before it does
    anything else, and the one recursive call, in the handler of a failed
    [from_url], is made on what is left.  [play_next_song_eq] below gives
    the equation in the shape of the source. *)
Fixpoint play_next_from (env : Env) (g : Z) (q : list Song) (w : World)
    : World * list Event :=
  match q with
  | [] => (w, [Log LogNoSongs])
  | next_song :: rest =>
      match voice_clients w !! g with
      | None => (w, [Log LogNoVoiceClient])
      | Some voice_client =>
          (* next_song = music_queues[guild.id].popleft() *)
          let w1 := set_queue g rest w in
          match YTDLSource.from_url env (url next_song) with
          | None =>
              (* Try to play next song if current fails *)
              let '(w2, evs) :=
                match rest with
                | [] => (w1, [])
                | _ :: _ => play_next_from env g rest w1
                end in
              (w2, [Log (LogPlayingNext next_song); ExtractInfo (url next_song);
                    Log (LogSourceError next_song)] ++ evs)
          | Some player =>
              if negb (opus_is_loaded env) then
                (w1, [Log (LogPlayingNext next_song); ExtractInfo (url next_song);
                      Log LogOpusNotLoaded])
              else if VoiceClient.is_playing voice_client then
                (* voice_client.play raises ClientException, caught by the
                   outer handler *)
                (w1, [Log (LogPlayingNext next_song); ExtractInfo (url next_song);
                      Log LogPlayNextError])
              else
                (set_voice_client g
                   {| VoiceClient.channel := VoiceClient.channel voice_client;
                      VoiceClient.player :=
                        Some {| source := player; after := next_song;
                                ended := false |} |} w1,
                 [Log (LogPlayingNext next_song); ExtractInfo (url next_song);
                  Play g player; Log (LogNowPlaying next_song)])
          end
      end
  end.

Definition play_next_song (env : Env) (g : Z) (w : World) : World * list Event :=
  play_next_from env g (pending g w) w.

(** [after_playing(error)], the closure handed to [voice_client.play]. *)
Definition after_playing (env : Env) (cb : Callback) (w : World)
    : World * list Event :=
  let line := match cb_error cb with
              | Some _ => LogPlayerError (cb_song cb)
              | None => LogFinished (cb_song cb)
              end in
  let '(w1, evs) := play_next_song env (cb_guild cb) w in
  (w1, Log line :: evs).

(** The event loop runs the oldest waiting callback. *)
Definition run_callback (env : Env) (w : World) : World * list Event :=
  match callbacks w with
  | [] => (w, [])
  | cb :: rest =>
      after_playing env cb
        {| music_queues := music_queues w;
           voice_clients := voice_clients w;
           callbacks := rest |}
  end.

(** ** The commands *)

(** What a command reads from its [discord.Interaction]: the mention of
    the user, the voice channel the user is in, if any, and the guild. *)
Record Interaction := {
  user : string;
  user_voice : option Z;
  guild : Z
}.

(** [query.startswith(('http://', 'https://', 'www.'))] *)
Definition is_url (query : string) : bool :=
  String.prefix "http://" query || String.prefix "https://" query
  || String.prefix "www." query.

Definition search_query (query : string) : string :=
  if is_url query then query else "ytsearch:" +:+ query.

(** [if guild_id not in music_queues: music_queues[guild_id] = deque()] *)
Definition ensure_queue (g : Z) (w : World) : World :=
  match music_queues w !! g with
  | Some _ => w
  | None => set_queue g [] w
  end.

(** The dictionary [play] builds from the extracted info:
    [data.get('webpage_url', data.get('url', query))],
    [data.get('title', 'Unknown')], [data.get('duration', 0)]. *)
Definition make_song (i : Interaction) (query : string) (data : Info) : Song :=
  {| url := dict_get_default (info_webpage_url data)
              (dict_get_default (info_url data) (Some query));
     title := dict_get_default (info_title data) (Some "Unknown"%string);
     duration := dict_get_default (info_duration data) (Some 0);
     requester := user i |}.

(** Connect to the user's voice channel, or move there.  The state is
    [None] when [connect] or [move_to] raises: the guild is then left
    as it was. *)
Definition ensure_connected (env : Env) (g voice_channel : Z) (w : World)
    : option World * list Event :=
  match voice_clients w !! g with
  | None =>
      if can_join env g voice_channel then
        (Some (set_voice_client g {| VoiceClient.channel := voice_channel;
                                     VoiceClient.player := None |} w),
         [Connect g voice_channel])
      else (None, [Connect g voice_channel])
  | Some voice_client =>
      if decide (VoiceClient.channel voice_client = voice_channel)
      then (Some w, [])
      else if can_join env g voice_channel then
        (Some (set_voice_client g
                 {| VoiceClient.channel := voice_channel;
                    VoiceClient.player := VoiceClient.player voice_client |} w),
         [MoveTo g voice_channel])
      else (None, [MoveTo g voice_channel])
  end.

(** The [/play] command. *)
Definition play (env : Env) (i : Interaction) (query : string) (w : World)
    : World * list Event :=
  match user_voice i with
  | None => (w, [SendMessage MsgNotInVoice])
  | Some voice_channel =>
      let guild_id := guild i in
      let w1 := ensure_queue guild_id w in
      (* Respond immediately to avoid timeout, then extract video info *)
      let pre := [SendMessage (MsgSearching query);
                  ExtractInfo (Some (search_query query))] in
      match extract_info env (search_query query) ≫= first_entry with
      | None => (w1, pre ++ [EditResponse (MsgCannotProcess query)])
      | Some data =>
          let song := make_song i query data in
          (* Add to queue *)
          let w2 := set_queue guild_id (pending guild_id w1 ++ [song]) w1 in
          let added := Log (LogAddedToQueue (length (pending guild_id w2))) in
          match ensure_connected env guild_id voice_channel w2 with
          | (None, conn) =>
              (* the handler of the [try]: the song stays in the queue *)
              (w2, pre ++ added :: conn
                       ++ [EditResponse (MsgCannotProcess query)])
          | (Some w3, conn) =>
              (* If nothing is playing, start playing *)
              if negb (is_playing guild_id w3) then
                let '(w4, evs) := play_next_song env guild_id w3 in
                (w4, pre ++ added :: conn ++ evs
                         ++ [EditResponse (MsgNowPlaying (title song))])
              else
                (w3, pre ++ added :: conn
                         ++ [EditResponse (MsgAddedToQueue (title song))])
          end
      end
  end.

(** The [/stop] command. *)
Definition stop (i : Interaction) (w : World) : World * list Event :=
  let guild_id := guild i in
  match voice_clients w !! guild_id with
  | Some _ =>
      (* Clear queue *)
      let w1 := match music_queues w !! guild_id with
                | Some _ => set_queue guild_id [] w
                | None => w
                end in
      (* Stop playing and disconnect *)
      let w2 := vc_stop guild_id w1 in
      let w3 := vc_disconnect guild_id w2 in
      (w3, [Stop guild_id; Disconnect guild_id; SendMessage MsgStopped])
  | None => (w, [SendMessage MsgNotConnected])
  end.

(** The [/skip] command. *)
Definition skip (i : Interaction) (w : World) : World * list Event :=
  if is_playing (guild i) w then
    (vc_stop (guild i) w, [Stop (guild i); SendMessage MsgSkipped])
  else (w, [SendMessage MsgNothingPlaying]).

(** The [/volume] command: [voice_client.source.volume = volume / 100]. *)
Definition volume (i : Interaction) (volume : Z) (w : World)
    : World * list Event :=
  if (volume <? 0) || (100 <? volume) then (w, [SendMessage MsgVolumeRange])
  else
    match voice_clients w !! guild i with
    | Some voice_client =>
        match VoiceClient.player voice_client with
        | Some p =>
            (set_voice_client (guild i)
               {| VoiceClient.channel := VoiceClient.channel voice_client;
                  VoiceClient.player :=
                    Some {| source :=
                              YTDLSource.set_volume (Q2Qc (volume # 100))
                                (source p);
                            after := after p; ended := ended p |} |} w,
             [SendMessage (MsgVolumeSet volume)])
        | None => (w, [SendMessage MsgNoMusic])
        end
    | None => (w, [SendMessage MsgNoMusic])
    end.

(** [on_guild_remove]: clean up the music queue for this guild. *)
Definition on_guild_remove (g : Z) (w : World) : World :=
  {| music_queues := delete g (music_queues w);
     voice_clients := voice_clients w;
     callbacks := callbacks w |}.

(** ** Runs and observations *)

(** A sequence of [/play] commands, one after the other. *)
Fixpoint enqueue_all (env : Env) (reqs : list (Interaction * string)) (w : World)
    : World * list Event :=
  match reqs with
  | [] => (w, [])
  | (i, query) :: reqs =>
      let '(w1, evs1) := play env i query w in
      let '(w2, evs2) := enqueue_all env reqs w1 in
      (w2, evs1 ++ evs2)
  end.

(** [n] rounds of: the running stream of [g] ends by itself, then the
    event loop runs the callback. *)
Fixpoint drain (env : Env) (g : Z) (n : nat) (w : World) : World * list Event :=
  match n with
  | O => (w, [])
  | S n =>
      let '(w1, evs1) := run_callback env (stream_ends g None w) in
      let '(w2, evs2) := drain env g n w1 in
      (w2, evs1 ++ evs2)
  end.

(** The songs whose stream was started, in order. *)
Definition started (evs : list Event) : list Song :=
  omap (λ e, match e with Log (LogNowPlaying s) => Some s | _ => None end) evs.

(** The queries sent to the media backend, in order. *)
Definition resolutions (evs : list Event) : list (option string) :=
  omap (λ e, match e with ExtractInfo q => Some q | _ => None end) evs.

(** The sources handed to [voice_client.play], in order. *)
Definition sources_played (evs : list Event) : list YTDLSource.t :=
  omap (λ e, match e with Play _ s => Some s | _ => None end) evs.

Definition disconnects (evs : list Event) : nat :=
  length (omap (λ e, match e with Disconnect g => Some g | _ => None end) evs).




(** ** A small media backend and some states, for the examples *)

Module Demo.

Definition track (name : string) : Info :=
  {| entries := Absent;
     info_title := Present (Some name);
     info_duration := Present (Some 180);
     info_webpage_url := Present (Some ("https://yt/" +:+ name));
     info_url := Present (Some ("https://cdn/" +:+ name)) |}.

Definition drop_prefix (n : nat) (s : string) : string :=
  String.substring n (String.length s - n) s.

(** A search returns one entry; a watch page resolves unless it is the
    page of the track called "gone"; anything else raises. *)
Definition extract (q : string) : option Info :=
  if String.prefix "ytsearch:" q then
    Some {| entries := Present (Some [track (drop_prefix 9 q)]);
            info_title := Absent; info_duration := Absent;
            info_webpage_url := Absent; info_url := Absent |}
  else if String.prefix "https://yt/" q then
    if String.eqb (drop_prefix 11 q) "gone" then None
    else Some (track (drop_prefix 11 q))
  else None.

Definition env : Env :=
  {| extract_info := extract; opus_is_loaded := true;
     can_join := λ _ _, true |}.

Definition alice : Interaction :=
  {| user := "<@alice>"; user_voice := Some 7; guild := 1 |}.

Definition song (name : string) : Song :=
  {| url := Some ("https://yt/" +:+ name); title := Some name;
     duration := Some 180; requester := "<@alice>" |}.

Definition source_of (name : string) : YTDLSource.t :=
  YTDLSource.init ("https://cdn/" +:+ name) (track name)
    YTDLSource.default_volume.

Definition empty : World :=
  {| music_queues := ∅; voice_clients := ∅; callbacks := [] |}.

(** Guild 1 is connected to channel 7 and streams track A; [q] waits. *)
Definition playing_A (q : list Song) : World :=
  {| music_queues := {[ 1 := q ]};
     voice_clients :=
       {[ 1 := {| VoiceClient.channel := 7;
                  VoiceClient.player :=
                    Some {| source := source_of "A"; after := song "A";
                            ended := false |} |} ]};
     callbacks := [] |}.

(** Guild 1 is connected to channel 7, nothing was played yet. *)
Definition connected (q : list Song) : World :=
  {| music_queues := {[ 1 := q ]};
     voice_clients :=
       {[ 1 := {| VoiceClient.channel := 7; VoiceClient.player := None |} ]};
     callbacks := [] |}.

End Demo.

(** ** The read-only commands *)

(** What [/queue] answers: "Queue kosong." or an embed whose description
    is the listing. *)
Inductive QueueResponse :=
| QueueEmpty
| QueueEmbed (description : string).

Definition newline : string := String (Ascii.ascii_of_nat 10) "".

(** [f"{i}. **{song['title']}** - {song['requester']}"] *)
Definition queue_line (i : nat) (song : Song) : string :=
  pretty i +:+ ". **" +:+ py_str (title song) +:+ "** - " +:+ requester song.

(** [enumerate(list(music_queues[guild_id])[:10], 1)]: the first 10 songs,
    numbered from 1. *)
Definition queue_list (q : list Song) : list string :=
  imap (λ k song, queue_line (S k) song) (take 10 q).

(** The number of songs the listing leaves out, when
    [len(music_queues[guild_id]) > 10]. *)
Definition queue_more (q : list Song) : option nat :=
  if decide (10 < length q)%nat then Some (length q - 10)%nat else None.

Definition queue_text (q : list Song) : string :=
  String.concat newline (queue_list q)
  +:+ match queue_more q with
      | Some n => newline +:+ "... dan " +:+ pretty n +:+ " lagu lainnya"
      | None => ""
      end.

(** The [/queue] command. *)
Definition queue (i : Interaction) (w : World) : QueueResponse :=
  match music_queues w !! guild i with
  | None | Some [] => QueueEmpty
  | Some q => QueueEmbed (queue_text q)
  end.

(** What [/nowplaying] answers. *)
Inductive NowPlayingResponse :=
| NowPlayingTitle (t : string)   (* "Sedang memutar: **title**" *)
| NowPlayingMusic                (* "Sedang memutar musik..." *)
| NothingPlaying.                (* "Tidak ada lagu yang sedang diputar." *)

(** The [/nowplaying] command; [source.title] counts when it is neither
    [None] nor the empty string. *)
Definition nowplaying (i : Interaction) (w : World) : NowPlayingResponse :=
  match voice_clients w !! guild i with
  | Some voice_client =>
      if VoiceClient.is_playing voice_client then
        match VoiceClient.current voice_client ≫= YTDLSource.title with
        | Some t => if decide (t = ""%string) then NowPlayingMusic
                    else NowPlayingTitle t
        | None => NowPlayingMusic
        end
      else NothingPlaying
  | None => NothingPlaying
  end.

(** ** Loading opus *)

(** The candidates of [load_opus_library]; the last one is the result of
    [ctypes.util.find_library('opus')], which may be [None]. *)
Definition opus_paths (found : option string) : list (option string) :=
  [Some "opus"; Some "libopus.so.0"; Some "libopus.so";
   Some "libopus.so.0.8.0"; Some "libopus.so.0.8";
   Some "/usr/lib/x86_64-linux-gnu/libopus.so.0";
   Some "/usr/lib/libopus.so.0"; Some "/usr/local/lib/libopus.so.0";
   found]%string.

(** The lines [load_opus_library] prints. *)
Inductive OpusPrint :=
| LoadedFrom (p : string)
| FailedFrom (p : string)
| LoadedDefault
| FailedDefault.

(** The loop over the candidates.  [load_opus (Some p)] tells whether
    [discord.opus.load_opus(p)] returns (true) or raises (false). *)
Fixpoint try_opus_paths (load_opus : option string → bool)
    (paths : list (option string)) : bool * list OpusPrint :=
  match paths with
  | [] => (false, [])
  | None :: paths => try_opus_paths load_opus paths
  | Some opus_path :: paths =>
      if load_opus (Some opus_path) then (true, [LoadedFrom opus_path])
      else
        let '(r, out) := try_opus_paths load_opus paths in
        (r, FailedFrom opus_path :: out)
  end.

(** [load_opus_library()]; [load_opus None] is the final attempt without
    a path. *)
Definition load_opus_library (load_opus : option string → bool)
    (found : option string) : bool * list OpusPrint :=
  let '(r, out) := try_opus_paths load_opus (opus_paths found) in
  if r then (true, out)
  else if load_opus None then (true, out ++ [LoadedDefault])
  else (false, out ++ [FailedDefault]).

(** ** Arbitrary runs *)

(** What can happen to the bot: a command, the removal from a guild, the
    end of a stream, the event loop running a waiting callback. *)
Inductive Action :=
| DoPlay (i : Interaction) (query : string)
| DoStop (i : Interaction)
| DoSkip (i : Interaction)
| DoVolume (i : Interaction) (v : Z)
| GuildRemoved (g : Z)
| StreamEnds (g : Z) (err : option string)
| RunCallback.

Definition step (env : Env) (a : Action) (w : World) : World :=
  match a with
  | DoPlay i query => (play env i query w).1
  | DoStop i => (stop i w).1
  | DoSkip i => (skip i w).1
  | DoVolume i v => (volume i v w).1
  | GuildRemoved g => on_guild_remove g w
  | StreamEnds g err => stream_ends g err w
  | RunCallback => (run_callback env w).1
  end.

Definition run (env : Env) (acts : list Action) (w : World) : World :=
  foldl (λ w a, step env a w) w acts.

(** The state at start-up: [music_queues = {}], no voice client. *)
Definition initial : World :=
  {| music_queues := ∅; voice_clients := ∅; callbacks := [] |}.

(** A source as [YTDLSource.from_url] builds them and [/volume] keeps
    them: a volume from 0 to 1, and the stream of its own info. *)
Definition source_ok (s : YTDLSource.t) : Prop :=
  (Q2Qc 0 <= YTDLSource.volume s)%Qc ∧ (YTDLSource.volume s <= Q2Qc 1)%Qc
  ∧ YTDLSource.url s = Some (YTDLSource.filename s)
  ∧ YTDLSource.title s = dict_get (info_title (YTDLSource.data s)).

(** The queue and the voice client of guild [g] are the same in both
    states. *)
Definition same_guild (g : Z) (w w' : World) : Prop :=
  music_queues w' !! g = music_queues w !! g
  ∧ voice_clients w' !! g = voice_clients w !! g.

(** Two guilds at once: guild 1 streams A with B pending, guild 2 is
    connected to channel 9 and has finished a stream, with C pending. *)
Definition two_guilds : World :=
  {| music_queues := {[ 1 := [Demo.song "B"]; 2 := [Demo.song "C"] ]};
     voice_clients :=
       {[ 1 := {| VoiceClient.channel := 7;
                  VoiceClient.player :=
                    Some {| source := Demo.source_of "A"; after := Demo.song "A";
                            ended := false |} |};
          2 := {| VoiceClient.channel := 9;
                  VoiceClient.player :=
                    Some {| source := Demo.source_of "D"; after := Demo.song "D";
                            ended := true |} |} ]};
     callbacks := [] |}.

(** * Properties *)

(** ** play_next_song *)

Lemma pending_set_queue g q w : pending g (set_queue g q w) = q.
Proof. unfold pending, set_queue; simpl. by rewrite lookup_insert_eq. Qed.

Lemma pending_set_queue_ne g g' q w :
  g ≠ g' → pending g' (set_queue g q w) = pending g' w.
Proof. intros. unfold pending, set_queue; simpl. by rewrite lookup_insert_ne. Qed.

(** The recursion of [play_next_from] is the recursion of the source:
    the function calls itself on the state it has just popped. *)
Lemma play_next_song_eq env g w :
  play_next_song env g w =
  match pending g w with
  | [] => (w, [Log LogNoSongs])
  | next_song :: rest =>
      match voice_clients w !! g with
      | None => (w, [Log LogNoVoiceClient])
      | Some voice_client =>
          let w1 := set_queue g rest w in
          match YTDLSource.from_url env (url next_song) with
          | None =>
              let '(w2, evs) :=
                if bool_decide (pending g w1 = []) then (w1, [])
                else play_next_song env g w1 in
              (w2, [Log (LogPlayingNext next_song); ExtractInfo (url next_song);
                    Log (LogSourceError next_song)] ++ evs)
          | Some player =>
              if negb (opus_is_loaded env) then
                (w1, [Log (LogPlayingNext next_song); ExtractInfo (url next_song);
                      Log LogOpusNotLoaded])
              else if VoiceClient.is_playing voice_client then
                (w1, [Log (LogPlayingNext next_song); ExtractInfo (url next_song);
                      Log LogPlayNextError])
              else
                (set_voice_client g
                   {| VoiceClient.channel := VoiceClient.channel voice_client;
                      VoiceClient.player :=
                        Some {| source := player; after := next_song;
                                ended := false |} |} w1,
                 [Log (LogPlayingNext next_song); ExtractInfo (url next_song);
                  Play g player; Log (LogNowPlaying next_song)])
          end
      end
  end.
Proof.
  unfold play_next_song.
  destruct (pending g w) as [|next_song rest]; [done|]. simpl.
  destruct (voice_clients w !! g); [|done].
  destruct (YTDLSource.from_url env (url next_song)); [done|].
  rewrite pending_set_queue.
  destruct rest; [done|]. by rewrite bool_decide_eq_false_2.
Qed.

Example demo_play_first :
  play Demo.env Demo.alice "A" Demo.empty =
  (Demo.playing_A [],
   [SendMessage (MsgSearching "A"); ExtractInfo (Some "ytsearch:A");
    Log (LogAddedToQueue 1); Connect 1 7;
    Log (LogPlayingNext (Demo.song "A")); ExtractInfo (Some "https://yt/A");
    Play 1 (Demo.source_of "A"); Log (LogNowPlaying (Demo.song "A"));
    EditResponse (MsgNowPlaying (Some "A"))]).
Proof. vm_compute. reflexivity. Qed.

(** ** Enqueue and resolution (C1) *)

Lemma is_playing_set_queue g g' q w :
  is_playing g' (set_queue g q w) = is_playing g' w.
Proof. done. Qed.

Lemma is_playing_ensure_queue g g' w :
  is_playing g' (ensure_queue g w) = is_playing g' w.
Proof. unfold ensure_queue. by destruct (music_queues w !! g). Qed.

Lemma pending_ensure_queue g g' w : pending g' (ensure_queue g w) = pending g' w.
Proof.
  unfold ensure_queue.
  destruct (music_queues w !! g) eqn:Hq; [done|].
  destruct (decide (g = g')) as [<-|Hne].
  - rewrite pending_set_queue. unfold pending. by rewrite Hq.
  - by apply pending_set_queue_ne.
Qed.

(** Joining adds no resolution and starts nothing. *)
Lemma ensure_connected_events env g c w :
  started (ensure_connected env g c w).2 = []
  ∧ resolutions (ensure_connected env g c w).2 = []
  ∧ sources_played (ensure_connected env g c w).2 = [].
Proof.
  unfold ensure_connected.
  destruct (voice_clients w !! g) as [vc|].
  - case_decide; [done|]. by destruct (can_join env g c).
  - by destruct (can_join env g c).
Qed.

(** A join that succeeds puts the voice client of the guild in the
    channel asked for, keeps the player it had, and touches nothing
    else. *)
Lemma ensure_connected_Some env g c w w3 :
  (ensure_connected env g c w).1 = Some w3 →
  (∃ vc, voice_clients w3 !! g = Some vc ∧ VoiceClient.channel vc = c
         ∧ VoiceClient.is_playing vc = is_playing g w)
  ∧ (∀ g', is_playing g' w3 = is_playing g' w)
  ∧ (∀ g', current g' w3 = current g' w)
  ∧ (∀ g', g ≠ g' → voice_clients w3 !! g' = voice_clients w !! g')
  ∧ music_queues w3 = music_queues w
  ∧ callbacks w3 = callbacks w.
Proof.
  unfold ensure_connected, is_playing, current.
  destruct (voice_clients w !! g) as [vc|] eqn:Hvc.
  - case_decide as Hc.
    + intros [= <-]. rewrite Hvc. split_and!; try done. by exists vc.
    + destruct (can_join env g c); [|done]. intros [= <-]. simpl.
      rewrite lookup_insert_eq. split_and!; try done.
      * by eexists.
      * intros g'. destruct (decide (g = g')) as [<-|Hne].
        -- by rewrite lookup_insert_eq, Hvc.
        -- by rewrite lookup_insert_ne.
      * intros g'. destruct (decide (g = g')) as [<-|Hne].
        -- by rewrite lookup_insert_eq, Hvc.
        -- by rewrite lookup_insert_ne.
      * intros g' Hne. by rewrite lookup_insert_ne.
  - destruct (can_join env g c); [|done]. intros [= <-]. simpl.
    rewrite lookup_insert_eq. split_and!; try done.
    + by eexists.
    + intros g'. destruct (decide (g = g')) as [<-|Hne].
      * by rewrite lookup_insert_eq, Hvc.
      * by rewrite lookup_insert_ne.
    + intros g'. destruct (decide (g = g')) as [<-|Hne].
      * by rewrite lookup_insert_eq, Hvc.
      * by rewrite lookup_insert_ne.
    + intros g' Hne. by rewrite lookup_insert_ne.
Qed.

(** A join fails only when one is needed and the gateway refuses it. *)
Lemma ensure_connected_None env g c w :
  (ensure_connected env g c w).1 = None ↔
  can_join env g c = false
  ∧ VoiceClient.channel <$> voice_clients w !! g ≠ Some c.
Proof.
  unfold ensure_connected.
  destruct (voice_clients w !! g) as [vc|]; simpl.
  - case_decide as Hc.
    + split; [done|]. intros [_ Hne]. by rewrite Hc in Hne.
    + destruct (can_join env g c); simpl; split; try done.
      * by intros [? _].
      * intros _. split; [done|]. by intros [= ?].
  - destruct (can_join env g c); simpl; split; try done. by intros [? _].
Qed.

(** What [/play] does when the guild is already streaming: the request is
    resolved, queued behind the others, and nothing is started, whether
    or not the bot manages to move to the channel of the user. *)
Lemma play_while_playing env i query w c d :
  user_voice i = Some c →
  is_playing (guild i) w = true →
  extract_info env (search_query query) ≫= first_entry = Some d →
  ∃ w' conn reply,
    play env i query w =
      (w', [SendMessage (MsgSearching query);
            ExtractInfo (Some (search_query query));
            Log (LogAddedToQueue (length (pending (guild i) w')))] ++ conn
           ++ [EditResponse reply])
    ∧ started conn = [] ∧ resolutions conn = []
    ∧ is_playing (guild i) w' = true
    ∧ current (guild i) w' = current (guild i) w
    ∧ pending (guild i) w' = pending (guild i) w ++ [make_song i query d]
    ∧ callbacks w' = callbacks w
    ∧ sources_played conn = [].
Proof.
  intros Hv Hp Hd. unfold play. rewrite Hv, Hd.
  set (w1 := ensure_queue (guild i) w).
  set (w2 := set_queue (guild i) (pending (guild i) w1 ++ [make_song i query d]) w1).
  assert (Hp2 : is_playing (guild i) w2 = true).
  { unfold w2, w1. by rewrite is_playing_set_queue, is_playing_ensure_queue. }
  assert (Hc2 : current (guild i) w2 = current (guild i) w).
  { unfold w2, w1, current, ensure_queue. simpl.
    by destruct (music_queues w !! guild i). }
  assert (Hcb2 : callbacks w2 = callbacks w).
  { unfold w2, w1, ensure_queue. by destruct (music_queues w !! guild i). }
  assert (Hpend2 : pending (guild i) w2 = pending (guild i) w ++ [make_song i query d]).
  { unfold w2, w1. by rewrite pending_set_queue, pending_ensure_queue. }
  destruct (ensure_connected_events env (guild i) c w2) as (Hs3 & Hr3 & Hsp3).
  pose proof (ensure_connected_Some env (guild i) c w2) as Hjoin.
  destruct (ensure_connected env (guild i) c w2) as [[w3|] conn]; simpl in *.
  - destruct (Hjoin w3 eq_refl) as (_ & Hp3 & Hc3 & _ & Hq3 & Hcb3).
    rewrite Hp3, Hp2. simpl.
    assert (Hpend3 : pending (guild i) w3
                     = pending (guild i) w ++ [make_song i query d]).
    { rewrite <- Hpend2. unfold pending. by rewrite Hq3. }
    eexists w3, conn, _. split_and!; try done.
    + by rewrite Hpend3, Hpend2.
    + by rewrite Hp3.
    + by rewrite Hc3.
    + by rewrite Hcb3.
  - eexists w2, conn, _. split_and!; done.
Qed.

Lemma resolutions_app evs1 evs2 :
  resolutions (evs1 ++ evs2) = resolutions evs1 ++ resolutions evs2.
Proof. apply omap_app. Qed.

Lemma started_app evs1 evs2 : started (evs1 ++ evs2) = started evs1 ++ started evs2.
Proof. apply omap_app. Qed.

(** C1, as the claim states it, fails: guild 1 is streaming track A when
    B is requested; B only joins the queue behind A, yet the command has
    called the media backend for it. *)
Lemma enqueue_resolves_eagerly :
  ¬ (∀ env i query w,
       is_playing (guild i) w = true →
       resolutions (play env i query w).2 = []).
Proof.
  intros H.
  specialize (H Demo.env Demo.alice "B"%string (Demo.playing_A []) eq_refl).
  vm_compute in H. discriminate H.
Qed.

(** C1, amended: [/play] acknowledges the user first and then resolves
    the query over the network, once, before the request is queued (a
    request queued behind a playing track costs exactly that one
    resolution); [play_next_song] resolves the queued URL a second time
    when it pops the entry from the head of the queue. *)
Theorem play_acknowledges_then_resolves env i query w c :
  user_voice i = Some c →
  (∃ evs, (play env i query w).2 =
          SendMessage (MsgSearching query)
          :: ExtractInfo (Some (search_query query)) :: evs)
  ∧ (is_playing (guild i) w = true →
     resolutions (play env i query w).2 = [Some (search_query query)])
  ∧ (∀ g next_song rest,
       pending g w = next_song :: rest → is_Some (voice_clients w !! g) →
       ∃ evs, (play_next_song env g w).2 =
              Log (LogPlayingNext next_song) :: ExtractInfo (url next_song) :: evs).
Proof.
  intros Hv. split_and!.
  - unfold play. rewrite Hv.
    destruct (extract_info env (search_query query) ≫= first_entry); [|by eexists].
    destruct (ensure_connected _ _ _ _) as [[w3|] conn]; [|by eexists].
    destruct (negb (is_playing (guild i) w3)).
    + destruct (play_next_song env (guild i) w3). by eexists.
    + by eexists.
  - intros Hp.
    destruct (extract_info env (search_query query) ≫= first_entry) as [d|] eqn:Hd.
    + destruct (play_while_playing env i query w c d Hv Hp Hd)
        as (w' & conn & reply & -> & _ & Hr & _). simpl.
      by rewrite resolutions_app, Hr.
    + unfold play. by rewrite Hv, Hd.
  - intros g next_song rest Hq [vc Hvc].
    rewrite play_next_song_eq, Hq, Hvc. simpl.
    destruct (YTDLSource.from_url env (url next_song)).
    + destruct (negb (opus_is_loaded env)); [by eexists|].
      destruct (VoiceClient.is_playing vc); by eexists.
    + destruct (if bool_decide _ then _ else _). by eexists.
Qed.

Lemma play_acknowledges_then_resolves_witness :
  (∃ evs, (play Demo.env Demo.alice "B" (Demo.playing_A [Demo.song "C"])).2 =
          SendMessage (MsgSearching "B")
          :: ExtractInfo (Some (search_query "B")) :: evs)
  ∧ (is_playing 1 (Demo.playing_A [Demo.song "C"]) = true →
     resolutions (play Demo.env Demo.alice "B" (Demo.playing_A [Demo.song "C"])).2
     = [Some (search_query "B")])
  ∧ (∀ g next_song rest,
       pending g (Demo.playing_A [Demo.song "C"]) = next_song :: rest →
       is_Some (voice_clients (Demo.playing_A [Demo.song "C"]) !! g) →
       ∃ evs, (play_next_song Demo.env g (Demo.playing_A [Demo.song "C"])).2 =
              Log (LogPlayingNext next_song) :: ExtractInfo (url next_song) :: evs).
Proof.
  apply (play_acknowledges_then_resolves Demo.env Demo.alice "B"
           (Demo.playing_A [Demo.song "C"]) 7).
  reflexivity.
Defined.

(** ** What [play_next_song] attempts *)

(** Every call resolves the entries of a prefix of the queue, each once
    and in order, and leaves the rest of the queue pending. *)
Lemma play_next_from_attempts env g q : ∀ w,
  pending g w = q →
  ∃ n, (n ≤ length q)%nat
    ∧ resolutions (play_next_from env g q w).2 = url <$> take n q
    ∧ pending g (play_next_from env g q w).1 = drop n q
    ∧ (q ≠ [] → is_Some (voice_clients w !! g) → (0 < n)%nat)
    ∧ callbacks (play_next_from env g q w).1 = callbacks w.
Proof.
  induction q as [|next_song rest IH]; intros w Hq.
  { exists 0%nat. by split_and!. }
  simpl. destruct (voice_clients w !! g) as [vc|] eqn:Hvc.
  2:{ exists 0%nat. split_and!; try done; try lia. }
  destruct (YTDLSource.from_url env (url next_song)) as [player|].
  - exists 1%nat.
    destruct (negb (opus_is_loaded env)); [|destruct (VoiceClient.is_playing vc)];
      simpl; rewrite ?take_0, ?drop_0; split_and!; try done; try lia;
      try (unfold pending; simpl; by rewrite lookup_insert_eq).
  - destruct rest as [|s rest'].
    + exists 1%nat. simpl. split_and!; try done; try lia.
      by rewrite pending_set_queue.
    + destruct (IH (set_queue g (s :: rest') w)) as (n & Hn & Hr & Hp & Hpos & Hcb);
        [apply pending_set_queue|].
      destruct (play_next_from env g (s :: rest') (set_queue g (s :: rest') w))
        as [w2 evs] eqn:Hrec.
      exists (S n). simpl in *. split_and!; try done; try lia.
      by rewrite Hr.
Qed.

(** While a stream is playing, [play_next_song] cannot start another
    one: the voice clients are left as they are. *)
Lemma play_next_from_while_playing env g q : ∀ w,
  is_playing g w = true →
  voice_clients (play_next_from env g q w).1 = voice_clients w
  ∧ started (play_next_from env g q w).2 = []
  ∧ sources_played (play_next_from env g q w).2 = [].
Proof.
  induction q as [|next_song rest IH]; intros w Hp; [done|].
  simpl. unfold is_playing in Hp.
  destruct (voice_clients w !! g) as [vc|] eqn:Hvc; [|done].
  destruct (YTDLSource.from_url env (url next_song)) as [player|].
  - destruct (negb (opus_is_loaded env)); [done|]. by rewrite Hp.
  - destruct rest as [|s rest']; [done|].
    specialize (IH (set_queue g (s :: rest') w)).
    destruct (play_next_from env g (s :: rest') (set_queue g (s :: rest') w))
      as [w2 evs] eqn:Hrec.
    simpl in *. apply IH. unfold is_playing. simpl. by rewrite Hvc.
Qed.

(** ** Stop and the completion callback (C2) *)

Lemma is_playing_inv g w :
  is_playing g w = true →
  ∃ vc p, voice_clients w !! g = Some vc ∧ VoiceClient.player vc = Some p
          ∧ ended p = false.
Proof.
  unfold is_playing, VoiceClient.is_playing.
  destruct (voice_clients w !! g) as [vc|]; [|done].
  destruct (VoiceClient.player vc) as [p|] eqn:Hpl; [|done].
  intros Hp. exists vc, p. split_and!; try done. by destruct (ended p).
Qed.

Lemma vc_stop_player g w vc p :
  voice_clients w !! g = Some vc → VoiceClient.player vc = Some p →
  vc_stop g w =
    {| music_queues := music_queues w;
       voice_clients :=
         <[g := {| VoiceClient.channel := VoiceClient.channel vc;
                   VoiceClient.player := None |}]> (voice_clients w);
       callbacks := if ended p then callbacks w
                    else callbacks w ++ [callback_of g None p] |}.
Proof. intros Hvc Hp. unfold vc_stop. by rewrite Hvc, Hp. Qed.

Lemma vc_stop_no_player g w vc :
  voice_clients w !! g = Some vc → VoiceClient.player vc = None →
  vc_stop g w = w.
Proof. intros Hvc Hp. unfold vc_stop. by rewrite Hvc, Hp. Qed.

(** What [/stop] leaves behind when the guild has a voice client. *)
Lemma stop_connected i w vc :
  voice_clients w !! guild i = Some vc →
  stop i w =
    ({| music_queues :=
          match music_queues w !! guild i with
          | Some _ => <[guild i := []]> (music_queues w)
          | None => music_queues w
          end;
        voice_clients := delete (guild i) (voice_clients w);
        callbacks :=
          match VoiceClient.player vc with
          | Some p => if ended p then callbacks w
                      else callbacks w ++ [callback_of (guild i) None p]
          | None => callbacks w
          end |},
     [Stop (guild i); Disconnect (guild i); SendMessage MsgStopped]).
Proof.
  intros Hvc. unfold stop. rewrite Hvc. f_equal.
  set (w1 := match music_queues w !! guild i with
             | Some _ => set_queue (guild i) [] w | None => w end).
  assert (Hvc1 : voice_clients w1 = voice_clients w)
    by (unfold w1; by destruct (music_queues w !! guild i)).
  assert (Hcb1 : callbacks w1 = callbacks w)
    by (unfold w1; by destruct (music_queues w !! guild i)).
  assert (Hq1 : music_queues w1 = match music_queues w !! guild i with
                                  | Some _ => <[guild i := []]> (music_queues w)
                                  | None => music_queues w end)
    by (unfold w1; by destruct (music_queues w !! guild i)).
  clearbody w1. rewrite <- Hvc1 in Hvc.
  unfold vc_disconnect.
  destruct (VoiceClient.player vc) as [p|] eqn:Hp.
  - rewrite (vc_stop_player _ _ _ _ Hvc Hp).
    erewrite vc_stop_no_player; [|by apply lookup_insert_eq|done].
    simpl. by rewrite delete_insert_eq, Hq1, Hvc1, Hcb1.
  - rewrite !(vc_stop_no_player _ _ _ Hvc Hp). by rewrite Hq1, Hvc1, Hcb1.
Qed.

Lemma pending_after_stop i w vc :
  voice_clients w !! guild i = Some vc → pending (guild i) (stop i w).1 = [].
Proof.
  intros Hvc. rewrite (stop_connected i w vc Hvc). unfold pending; simpl.
  destruct (music_queues w !! guild i) eqn:Hq.
  - by rewrite lookup_insert_eq.
  - by rewrite Hq.
Qed.

(** C2, as the claim states it, fails: guild 1 streams A with B pending
    when [/stop] is issued.  The callback of the halted stream is waiting
    afterwards; when it runs it takes the branch of a clean finish
    ("Finished playing") and calls [play_next_song]. *)
Lemma stop_notification_not_suppressed :
  callbacks (stop Demo.alice (Demo.playing_A [Demo.song "B"])).1
  = [{| cb_guild := 1; cb_song := Demo.song "A"; cb_error := None |}]
  ∧ (run_callback Demo.env
       (stop Demo.alice (Demo.playing_A [Demo.song "B"])).1).2
    = [Log (LogFinished (Demo.song "A")); Log LogNoSongs].
Proof. split; vm_compute; reflexivity. Qed.

(** [/skip] lives on the same callback: it only halts the stream, and the
    callback of the halted stream starts the next song. *)
Example demo_skip_advances :
  let w1 := (skip Demo.alice (Demo.playing_A [Demo.song "B"])).1 in
  current 1 w1 = None
  ∧ pending 1 w1 = [Demo.song "B"]
  ∧ started (run_callback Demo.env w1).2 = [Demo.song "B"]
  ∧ current 1 (run_callback Demo.env w1).1 = Some (Demo.source_of "B").
Proof. vm_compute. done. Qed.

(** C2, amended: [/stop] does not suppress the completion callback of
    the stream it halts.  The callback is requested as for a clean finish
    and calls [play_next_song]; run on the state [/stop] has left, that
    call finds no pending song and starts nothing. *)
Theorem stop_callback_starts_nothing env i w :
  is_playing (guild i) w = true →
  ∃ cb, callbacks (stop i w).1 = callbacks w ++ [cb]
      ∧ cb_guild cb = guild i ∧ cb_error cb = None
      ∧ after_playing env cb (stop i w).1
        = ((stop i w).1, [Log (LogFinished (cb_song cb)); Log LogNoSongs]).
Proof.
  intros Hp. destruct (is_playing_inv _ _ Hp) as (vc & p & Hvc & Hpl & He).
  exists (callback_of (guild i) None p). split_and!; try done.
  - rewrite (stop_connected i w vc Hvc). simpl. by rewrite Hpl, He.
  - unfold after_playing, play_next_song, callback_of.
    cbn [cb_guild cb_song cb_error].
    by rewrite (pending_after_stop i w vc Hvc).
Qed.

Lemma stop_callback_starts_nothing_witness :
  ∃ cb, callbacks (stop Demo.alice (Demo.playing_A [Demo.song "B"])).1
        = callbacks (Demo.playing_A [Demo.song "B"]) ++ [cb]
      ∧ cb_guild cb = guild Demo.alice ∧ cb_error cb = None
      ∧ after_playing Demo.env cb (stop Demo.alice (Demo.playing_A [Demo.song "B"])).1
        = ((stop Demo.alice (Demo.playing_A [Demo.song "B"])).1,
           [Log (LogFinished (cb_song cb)); Log LogNoSongs]).
Proof.
  apply (stop_callback_starts_nothing Demo.env Demo.alice
           (Demo.playing_A [Demo.song "B"])).
  reflexivity.
Defined.

(** ** A completion callback that runs twice (C3) *)

Lemma after_playing_fst env cb w :
  (after_playing env cb w).1 = (play_next_song env (cb_guild cb) w).1.
Proof. unfold after_playing. by destruct (play_next_song env (cb_guild cb) w). Qed.

Lemma after_playing_snd env cb w :
  ∃ line, (after_playing env cb w).2
          = Log line :: (play_next_song env (cb_guild cb) w).2
        ∧ (line = LogFinished (cb_song cb) ∨ line = LogPlayerError (cb_song cb)).
Proof.
  unfold after_playing. destruct (play_next_song env (cb_guild cb) w).
  destruct (cb_error cb); eexists; split; eauto.
Qed.

(** C3, as the claim states it, fails: the stream of A has come to its
    end with B and C pending, and its callback runs twice.  The first run
    starts B and leaves C pending; the second run is not a no-op: it pops
    C and resolves it, and C is never played. *)
Lemma second_notification_advances_again :
  let cb := {| cb_guild := 1; cb_song := Demo.song "A"; cb_error := None |} in
  let w0 := stream_ends 1 None
              (Demo.playing_A [Demo.song "B"; Demo.song "C"]) in
  let w1 := (after_playing Demo.env cb w0).1 in
  let w2 := (after_playing Demo.env cb w1).1 in
  started (after_playing Demo.env cb w0).2 = [Demo.song "B"]
  ∧ pending 1 w1 = [Demo.song "C"]
  ∧ resolutions (after_playing Demo.env cb w1).2 = [Some "https://yt/C"%string]
  ∧ started (after_playing Demo.env cb w1).2 = []
  ∧ pending 1 w2 = []
  ∧ w2 ≠ w1.
Proof.
  split_and!; try (vm_compute; reflexivity).
  intros H. apply (f_equal (pending 1)) in H. vm_compute in H. discriminate H.
Qed.

(** C3, amended: there is no generation counter; every run of the
    completion callback calls [play_next_song].  A run that finds a
    stream playing (the second of two runs for one play, once the first
    has started the next track) starts nothing and leaves the playing
    stream alone, but it is a no-op only when nothing is pending:
    otherwise it pops and resolves at least one pending entry, which is
    never played. *)
Theorem repeated_notification_pops env cb w :
  is_playing (cb_guild cb) w = true →
  voice_clients (after_playing env cb w).1 = voice_clients w
  ∧ started (after_playing env cb w).2 = []
  ∧ (pending (cb_guild cb) w = [] → (after_playing env cb w).1 = w)
  ∧ (pending (cb_guild cb) w ≠ [] →
     ∃ n, (0 < n ≤ length (pending (cb_guild cb) w))%nat
        ∧ pending (cb_guild cb) (after_playing env cb w).1
          = drop n (pending (cb_guild cb) w)
        ∧ resolutions (after_playing env cb w).2
          = url <$> take n (pending (cb_guild cb) w)).
Proof.
  intros Hp. rewrite after_playing_fst.
  destruct (after_playing_snd env cb w) as (line & -> & Hline).
  unfold play_next_song.
  destruct (play_next_from_while_playing env (cb_guild cb)
              (pending (cb_guild cb) w) w Hp) as (Hvc & Hst & _).
  split_and!; try done.
  - by destruct Hline as [-> | ->].
  - intros ->. done.
  - intros Hne.
    destruct (play_next_from_attempts env (cb_guild cb)
                (pending (cb_guild cb) w) w eq_refl) as (n & Hn & Hr & Hq & Hpos & _).
    exists n. split_and!; try done.
    apply Hpos; [done|]. destruct (is_playing_inv _ _ Hp) as (vc & _ & -> & _).
    by eexists.
Qed.

Lemma repeated_notification_pops_witness :
  let cb := {| cb_guild := 1; cb_song := Demo.song "A"; cb_error := None |} in
  let w := Demo.playing_A [Demo.song "C"] in
  voice_clients (after_playing Demo.env cb w).1 = voice_clients w
  ∧ started (after_playing Demo.env cb w).2 = []
  ∧ (pending 1 w = [] → (after_playing Demo.env cb w).1 = w)
  ∧ (pending 1 w ≠ [] →
     ∃ n, (0 < n ≤ length (pending 1 w))%nat
        ∧ pending 1 (after_playing Demo.env cb w).1 = drop n (pending 1 w)
        ∧ resolutions (after_playing Demo.env cb w).2
          = url <$> take n (pending 1 w)).
Proof.
  apply (repeated_notification_pops Demo.env
           {| cb_guild := 1; cb_song := Demo.song "A"; cb_error := None |}
           (Demo.playing_A [Demo.song "C"])).
  reflexivity.
Defined.

(** ** Resolution failures (C4) *)

Lemma play_next_from_skips env g vc bad good rest src : ∀ w,
  voice_clients w !! g = Some vc →
  VoiceClient.is_playing vc = false →
  opus_is_loaded env = true →
  Forall (λ s, YTDLSource.from_url env (url s) = None) bad →
  YTDLSource.from_url env (url good) = Some src →
  pending g (play_next_from env g (bad ++ good :: rest) w).1 = rest
  ∧ current g (play_next_from env g (bad ++ good :: rest) w).1 = Some src
  ∧ is_playing g (play_next_from env g (bad ++ good :: rest) w).1 = true
  ∧ started (play_next_from env g (bad ++ good :: rest) w).2 = [good]
  ∧ resolutions (play_next_from env g (bad ++ good :: rest) w).2
    = url <$> (bad ++ [good]).
Proof.
  intros w Hvc Hidle Hopus Hbad Hgood. revert w Hvc.
  induction Hbad as [|s bad' Hs Hbad' IH]; intros w Hvc.
  - simpl. rewrite Hvc, Hgood, Hopus, Hidle. simpl.
    unfold pending, current, is_playing. simpl.
    rewrite !lookup_insert_eq. done.
  - cbn [app play_next_from]. rewrite Hvc, Hs.
    destruct (bad' ++ good :: rest) as [|s' q'] eqn:Hq;
      [by destruct bad'|].
    specialize (IH (set_queue g (s' :: q') w) Hvc).
    destruct (play_next_from env g (s' :: q') (set_queue g (s' :: q') w))
      as [w2 evs] eqn:Hrec.
    simpl in *. destruct IH as (? & ? & ? & ? & Hr). split_and!; try done.
    by rewrite Hr.
Qed.



(** The scenario of C4 through the commands: A is requested, then B;
    the page of A does not resolve at play time.  B ends up playing. *)
Example demo_skip_over :
  let w1 := (play Demo.env Demo.alice "gone" Demo.empty).1 in
  let w2 := (play Demo.env Demo.alice "B" w1).1 in
  is_playing 1 w1 = false ∧ pending 1 w1 = []
  ∧ current 1 w2 = Some (Demo.source_of "B") ∧ is_playing 1 w2 = true
  ∧ pending 1 w2 = [].
Proof. vm_compute. done. Qed.

(** ** Playback order (C5) *)

(** C5: the code does not play every sequence of requests in the order
    they were made.  A is requested, then B; the stream of A comes to
    its end, and C is requested before the callback of A has run.  No
    skip, no stop.  [/play] finds nothing playing and starts B itself;
    the callback of A then pops C, resolves it, and [voice_client.play]
    refuses it because B is playing.  A and B are played, C never is:
    it is gone from the queue when B ends. *)
Lemma enqueue_between_tracks_loses_song :
  let r1 := play Demo.env Demo.alice "A" initial in
  let r2 := play Demo.env Demo.alice "B" r1.1 in
  let w3 := stream_ends 1 None r2.1 in
  let r4 := play Demo.env Demo.alice "C" w3 in
  let r5 := run_callback Demo.env r4.1 in
  let r6 := drain Demo.env 1 3 r5.1 in
  pending 1 w3 = [Demo.song "B"] ∧ is_playing 1 w3 = false
  ∧ sources_played r4.2 = [Demo.source_of "B"]
  ∧ pending 1 r4.1 = [Demo.song "C"]
  ∧ resolutions r5.2 = [Some "https://yt/C"%string]
  ∧ sources_played r5.2 = []
  ∧ pending 1 r5.1 = [] ∧ current 1 r5.1 = Some (Demo.source_of "B")
  ∧ sources_played (r1.2 ++ r2.2 ++ r4.2 ++ r5.2 ++ r6.2)
    = [Demo.source_of "A"; Demo.source_of "B"]
  ∧ started (r1.2 ++ r2.2 ++ r4.2 ++ r5.2 ++ r6.2)
    = [Demo.song "A"; Demo.song "B"]
  ∧ pending 1 r6.1 = [] ∧ is_playing 1 r6.1 = false.
Proof. vm_compute. split_and!; reflexivity. Qed.

(** ** Playback order when every callback runs in time *)


Lemma play_next_from_skips_sources env g vc bad good rest src : ∀ w,
  voice_clients w !! g = Some vc →
  VoiceClient.is_playing vc = false →
  opus_is_loaded env = true →
  Forall (λ s, YTDLSource.from_url env (url s) = None) bad →
  YTDLSource.from_url env (url good) = Some src →
  sources_played (play_next_from env g (bad ++ good :: rest) w).2 = [src].
Proof.
  intros w Hvc Hidle Hopus Hbad Hgood. revert w Hvc.
  induction Hbad as [|s bad' Hs Hbad' IH]; intros w Hvc.
  - simpl. by rewrite Hvc, Hgood, Hopus, Hidle.
  - cbn [app play_next_from]. rewrite Hvc, Hs.
    destruct (bad' ++ good :: rest) as [|s' q'] eqn:Hq;
      [by destruct bad'|].
    specialize (IH (set_queue g (s' :: q') w) Hvc).
    by destruct (play_next_from env g (s' :: q') (set_queue g (s' :: q') w)).
Qed.

Lemma sources_played_app evs1 evs2 :
  sources_played (evs1 ++ evs2) = sources_played evs1 ++ sources_played evs2.
Proof. apply omap_app. Qed.

(** The first request of an idle guild is queued and started at once,
    when the bot can join the channel of the user. *)
Lemma play_when_idle env i query w c d src :
  opus_is_loaded env = true →
  user_voice i = Some c →
  can_join env (guild i) c = true →
  is_playing (guild i) w = false →
  pending (guild i) w = [] →
  extract_info env (search_query query) ≫= first_entry = Some d →
  YTDLSource.from_url env (url (make_song i query d)) = Some src →
  is_playing (guild i) (play env i query w).1 = true
  ∧ pending (guild i) (play env i query w).1 = []
  ∧ callbacks (play env i query w).1 = callbacks w
  ∧ started (play env i query w).2 = [make_song i query d]
  ∧ current (guild i) (play env i query w).1 = Some src
  ∧ sources_played (play env i query w).2 = [src].
Proof.
  intros Hopus Hv Hjoin Hidle Hq Hd Hsrc. unfold play. rewrite Hv, Hd.
  set (song := make_song i query d).
  set (w2 := set_queue (guild i)
               (pending (guild i) (ensure_queue (guild i) w) ++ [song])
               (ensure_queue (guild i) w)).
  assert (Hq2 : pending (guild i) w2 = [song]).
  { unfold w2. by rewrite pending_set_queue, pending_ensure_queue, Hq. }
  assert (Hidle2 : is_playing (guild i) w2 = false).
  { unfold w2. by rewrite is_playing_set_queue, is_playing_ensure_queue. }
  assert (Hcb2 : callbacks w2 = callbacks w).
  { unfold w2, ensure_queue. by destruct (music_queues w !! guild i). }
  destruct (ensure_connected_events env (guild i) c w2) as (Hst & _ & Hsp).
  pose proof (ensure_connected_Some env (guild i) c w2) as Hsome.
  pose proof (ensure_connected_None env (guild i) c w2) as Hnone.
  destruct (ensure_connected env (guild i) c w2) as [[w3|] conn]; simpl in *.
  2:{ destruct Hnone as [Hnone _]. destruct (Hnone eq_refl). congruence. }
  destruct (Hsome w3 eq_refl) as ((vc & Hvc & Hch & Hpl) & Hp3 & _ & _ & Hmq & Hcb).
  assert (Hq3 : pending (guild i) w3 = [song]).
  { rewrite <- Hq2. unfold pending. by rewrite Hmq. }
  rewrite Hp3, Hidle2. simpl.
  destruct (play_next_from_skips env (guild i) vc [] song [] src w3)
    as (Hp4 & Hcur4 & Hpl4 & Hst4 & _); try done; [by rewrite Hpl|].
  pose proof (play_next_from_skips_sources env (guild i) vc [] song [] src w3)
    as Hsp4.
  destruct (play_next_from_attempts env (guild i) [song] w3 Hq3)
    as (_ & _ & _ & _ & _ & Hcb4).
  unfold play_next_song. rewrite Hq3. cbn [app] in *.
  destruct (play_next_from env (guild i) [song] w3) as [w4 evs]. simpl in *.
  split_and!; try done.
  - by rewrite Hcb4, Hcb, Hcb2.
  - rewrite started_app, started_app, Hst, Hst4. done.
  - rewrite sources_played_app, sources_played_app, Hsp, Hsp4; try done.
    by rewrite Hpl.
Qed.






Lemma started_after_playing env cb w :
  started (after_playing env cb w).2
  = started (play_next_song env (cb_guild cb) w).2.
Proof.
  destruct (after_playing_snd env cb w) as (line & -> & [-> | ->]); done.
Qed.









Example demo_fifo :
  let reqs := [(Demo.alice, "A"); (Demo.alice, "B"); (Demo.alice, "C")]%string in
  let run1 := enqueue_all Demo.env reqs Demo.empty in
  sources_played (run1.2 ++ (drain Demo.env 1 3 run1.1).2)
  = [Demo.source_of "A"; Demo.source_of "B"; Demo.source_of "C"]
  ∧ pending 1 run1.1 = [Demo.song "B"; Demo.song "C"].
Proof. vm_compute. done. Qed.

(** ** Stop (C6) *)

(** C6: with a voice client, whatever it is doing, [/stop] empties the
    guild's queue, leaves no current source and no voice client, and
    calls [disconnect] once; without a voice client it answers that the
    bot is not connected and changes nothing. *)
Theorem stop_clears_and_disconnects i w :
  match voice_clients w !! guild i with
  | Some _ =>
      pending (guild i) (stop i w).1 = []
      ∧ current (guild i) (stop i w).1 = None
      ∧ is_playing (guild i) (stop i w).1 = false
      ∧ voice_clients (stop i w).1 !! guild i = None
      ∧ disconnects (stop i w).2 = 1%nat
      ∧ (stop i w).2 = [Stop (guild i); Disconnect (guild i);
                        SendMessage MsgStopped]
  | None => stop i w = (w, [SendMessage MsgNotConnected])
  end.
Proof.
  destruct (voice_clients w !! guild i) as [vc|] eqn:Hvc.
  - split; [by apply (pending_after_stop i w vc)|].
    rewrite (stop_connected i w vc Hvc). unfold current, is_playing. simpl.
    by rewrite lookup_delete_eq.
  - unfold stop. by rewrite Hvc.
Qed.

(** ** Volume (C7) *)

Lemma from_url_volume env u s :
  YTDLSource.from_url env u = Some s →
  YTDLSource.volume s = YTDLSource.default_volume.
Proof.
  unfold YTDLSource.from_url. destruct u as [u|]; [|done].
  destruct (extract_info env u) as [d|]; [|done].
  destruct (first_entry d) as [d'|]; [|done].
  destruct (info_url d') as [|[f|]]; try done. by intros [= <-].
Qed.

Lemma play_next_from_volume env g q : ∀ w,
  Forall (λ s, YTDLSource.volume s = YTDLSource.default_volume)
    (sources_played (play_next_from env g q w).2).
Proof.
  induction q as [|s rest IH]; intros w; simpl; [constructor|].
  destruct (voice_clients w !! g) as [vc|]; [|constructor].
  destruct (YTDLSource.from_url env (url s)) as [src|] eqn:Hsrc.
  - destruct (negb (opus_is_loaded env)); [constructor|].
    destruct (VoiceClient.is_playing vc); [constructor|].
    repeat constructor. by apply (from_url_volume env (url s)).
  - destruct rest as [|s' rest']; [constructor|].
    specialize (IH (set_queue g (s' :: rest') w)).
    by destruct (play_next_from env g (s' :: rest') (set_queue g (s' :: rest') w)).
Qed.

(** C7, as the claim states it, fails: the volume is set to 80 while A
    plays with B pending; when A ends, B starts at 0.5 again.  And with
    no stream the command stores nothing: it answers that no music is
    playing, and the track started afterwards plays at 0.5. *)
Lemma volume_does_not_persist :
  let w1 := (volume Demo.alice 80 (Demo.playing_A [Demo.song "B"])).1 in
  let w2 := (run_callback Demo.env (stream_ends 1 None w1)).1 in
  let w3 := Demo.connected [Demo.song "B"] in
  YTDLSource.volume <$> current 1 w1 = Some (Q2Qc (80 # 100))
  ∧ YTDLSource.title <$> current 1 w2 = Some (Some "B"%string)
  ∧ YTDLSource.volume <$> current 1 w2 = Some (Q2Qc (1 # 2))
  ∧ Q2Qc (1 # 2) ≠ Q2Qc (80 # 100)
  ∧ volume Demo.alice 80 w3 = (w3, [SendMessage MsgNoMusic])
  ∧ YTDLSource.volume <$> current 1 (play_next_song Demo.env 1 w3).1
    = Some (Q2Qc (1 # 2)).
Proof.
  split_and!; try (vm_compute; reflexivity).
  intros H. apply (f_equal this) in H. vm_compute in H. discriminate H.
Qed.

(** C7, amended: the volume is a property of the source being played,
    not of the guild.  Every source [play_next_song] starts has volume
    0.5, whatever was set before; [/volume] with a value from 0 to 100
    applies at once to the current source of the voice client when there
    is one, and otherwise answers that no music is playing and stores
    nothing. *)
Theorem volume_applies_to_current_source env i v w :
  (∀ g, Forall (λ s, YTDLSource.volume s = Q2Qc (1 # 2))
          (sources_played (play_next_song env g w).2))
  ∧ (0 ≤ v ≤ 100 → ∀ src, current (guild i) w = Some src →
       current (guild i) (volume i v w).1
       = Some (YTDLSource.set_volume (Q2Qc (Qmake v 100)) src))
  ∧ (0 ≤ v ≤ 100 → current (guild i) w = None →
       volume i v w = (w, [SendMessage MsgNoMusic])).
Proof.
  split_and!.
  - intros g. apply play_next_from_volume.
  - intros Hv src. unfold current, volume, VoiceClient.current.
    replace ((v <? 0) || (100 <? v)) with false by lia.
    destruct (voice_clients w !! guild i) as [vc|]; [|done]. simpl.
    destruct (VoiceClient.player vc) as [p|]; [|done]. simpl.
    intros [= <-]. by rewrite lookup_insert_eq.
  - intros Hv. unfold current, volume, VoiceClient.current.
    replace ((v <? 0) || (100 <? v)) with false by lia.
    destruct (voice_clients w !! guild i) as [vc|]; [|done]. simpl.
    by destruct (VoiceClient.player vc).
Qed.

Lemma volume_applies_to_current_source_witness :
  current 1 (volume Demo.alice 80 (Demo.playing_A [])).1
  = Some (YTDLSource.set_volume (Q2Qc (Qmake 80 100)) (Demo.source_of "A"))
  ∧ volume Demo.alice 80 Demo.empty = (Demo.empty, [SendMessage MsgNoMusic]).
Proof.
  split.
  - apply (proj1 (proj2 (volume_applies_to_current_source Demo.env Demo.alice 80
                           (Demo.playing_A [])))); [lia|reflexivity].
  - apply (proj2 (proj2 (volume_applies_to_current_source Demo.env Demo.alice 80
                           Demo.empty))); [lia|reflexivity].
Defined.

(** ** Leaving a guild (C8) *)

(** C8, as the claim states it, fails: guild 1 streams A when the bot
    is removed from it.  The handler leaves the voice client connected
    and streaming, where [/stop] followed by the removal of the entry
    leaves none. *)
Lemma guild_leave_keeps_stream :
  let w := Demo.playing_A [Demo.song "B"] in
  is_playing 1 (on_guild_remove 1 w) = true
  ∧ current 1 (on_guild_remove 1 w) = Some (Demo.source_of "A")
  ∧ is_playing 1 (on_guild_remove 1 (stop Demo.alice w).1) = false
  ∧ on_guild_remove 1 w ≠ on_guild_remove 1 (stop Demo.alice w).1.
Proof.
  split_and!; try (vm_compute; reflexivity).
  intros H. apply (f_equal (is_playing 1)) in H. vm_compute in H. discriminate H.
Qed.

(** C8, amended: when the bot leaves a guild, the handler removes the
    entry of that guild from [music_queues], so that nothing is pending
    for it, and does nothing else: the entries of the other guilds, the
    voice clients with their streams, and the waiting callbacks are left
    as they were. *)
Theorem on_guild_remove_only_drops_queue g w :
  music_queues (on_guild_remove g w) !! g = None
  ∧ pending g (on_guild_remove g w) = []
  ∧ (∀ g', music_queues (on_guild_remove g w) !! g'
           = if decide (g = g') then None else music_queues w !! g')
  ∧ voice_clients (on_guild_remove g w) = voice_clients w
  ∧ current g (on_guild_remove g w) = current g w
  ∧ is_playing g (on_guild_remove g w) = is_playing g w
  ∧ callbacks (on_guild_remove g w) = callbacks w.
Proof.
  unfold pending, on_guild_remove. simpl.
  rewrite lookup_delete_eq. split_and!; try done.
  intros g'. by rewrite lookup_delete.
Qed.

(** ** Invalid commands (C9) *)

(** C9: [/skip] while nothing plays and [/stop] without a voice client
    answer the caller with the error message and leave the state, the
    queue, the current source and the connection, as it was. *)
Theorem invalid_command_changes_nothing i w :
  (is_playing (guild i) w = false →
   skip i w = (w, [SendMessage MsgNothingPlaying]))
  ∧ (voice_clients w !! guild i = None →
     stop i w = (w, [SendMessage MsgNotConnected])).
Proof.
  split.
  - intros Hp. unfold skip. by rewrite Hp.
  - intros Hvc. unfold stop. by rewrite Hvc.
Qed.

Lemma invalid_command_changes_nothing_witness :
  skip Demo.alice (Demo.connected [Demo.song "B"])
  = (Demo.connected [Demo.song "B"], [SendMessage MsgNothingPlaying])
  ∧ stop Demo.alice Demo.empty = (Demo.empty, [SendMessage MsgNotConnected]).
Proof.
  split.
  - apply (proj1 (invalid_command_changes_nothing Demo.alice
                    (Demo.connected [Demo.song "B"]))).
    reflexivity.
  - apply (proj2 (invalid_command_changes_nothing Demo.alice Demo.empty)).
    reflexivity.
Defined.

(** ** A failed enqueue (C10) *)

(** C10: when the extraction of the query raises, be it the backend call
    or the empty list of entries, [/play] appends nothing: every guild
    has the pending songs it had, no voice client is touched and nothing
    is started.  The only trace in the state is the empty queue created
    for a guild that had no entry yet. *)
Theorem failed_extraction_leaves_queue env i query w :
  extract_info env (search_query query) ≫= first_entry = None →
  (∀ g, pending g (play env i query w).1 = pending g w)
  ∧ voice_clients (play env i query w).1 = voice_clients w
  ∧ callbacks (play env i query w).1 = callbacks w
  ∧ started (play env i query w).2 = []
  ∧ ((play env i query w).1 = w ∨ (play env i query w).1 = ensure_queue (guild i) w).
Proof.
  intros Hd. unfold play.
  destruct (user_voice i) as [c|]; [|by split_and!; try done; left].
  rewrite Hd. simpl. split_and!.
  - intros g. apply pending_ensure_queue.
  - unfold ensure_queue. by destruct (music_queues w !! guild i).
  - unfold ensure_queue. by destruct (music_queues w !! guild i).
  - done.
  - by right.
Qed.

Lemma failed_extraction_leaves_queue_witness :
  let w := Demo.playing_A [Demo.song "B"] in
  (∀ g, pending g (play Demo.env Demo.alice "https://nowhere/x" w).1 = pending g w)
  ∧ voice_clients (play Demo.env Demo.alice "https://nowhere/x" w).1 = voice_clients w
  ∧ callbacks (play Demo.env Demo.alice "https://nowhere/x" w).1 = callbacks w
  ∧ started (play Demo.env Demo.alice "https://nowhere/x" w).2 = []
  ∧ ((play Demo.env Demo.alice "https://nowhere/x" w).1 = w
     ∨ (play Demo.env Demo.alice "https://nowhere/x" w).1 = ensure_queue 1 w).
Proof.
  apply (failed_extraction_leaves_queue Demo.env Demo.alice
           "https://nowhere/x" (Demo.playing_A [Demo.song "B"])).
  reflexivity.
Defined.


(** * Further properties of the code *)

(** ** Guilds are independent *)

Lemma same_guild_refl g w : same_guild g w w.
Proof. by split. Qed.

Lemma same_guild_trans g w1 w2 w3 :
  same_guild g w1 w2 → same_guild g w2 w3 → same_guild g w1 w3.
Proof. intros [? ?] [? ?]. split; congruence. Qed.

Lemma same_guild_set_queue g g' q w : g ≠ g' → same_guild g' w (set_queue g q w).
Proof. intros. split; simpl; [by rewrite lookup_insert_ne|done]. Qed.

Lemma same_guild_set_voice_client g g' vc w :
  g ≠ g' → same_guild g' w (set_voice_client g vc w).
Proof. intros. split; simpl; [done|by rewrite lookup_insert_ne]. Qed.

Lemma same_guild_ensure_queue g g' w : g ≠ g' → same_guild g' w (ensure_queue g w).
Proof.
  intros. unfold ensure_queue. destruct (music_queues w !! g).
  - apply same_guild_refl.
  - by apply same_guild_set_queue.
Qed.

Lemma same_guild_ensure_connected env g g' c w w3 :
  g ≠ g' → (ensure_connected env g c w).1 = Some w3 → same_guild g' w w3.
Proof.
  intros Hne Hjoin.
  destruct (ensure_connected_Some env g c w w3 Hjoin) as (_ & _ & _ & Hv & Hq & _).
  split; [by rewrite Hq|by apply Hv].
Qed.

Lemma same_guild_vc_stop g g' w : g ≠ g' → same_guild g' w (vc_stop g w).
Proof.
  intros. unfold vc_stop. destruct (voice_clients w !! g) as [vc|];
    [|apply same_guild_refl].
  destruct (VoiceClient.player vc); [|apply same_guild_refl].
  split; simpl; [done|by rewrite lookup_insert_ne].
Qed.

(** [play_next_song] for guild [g]: the other guilds keep their queue and
    voice client, and the voice client of [g] stays in its channel. *)
Lemma play_next_from_frame env g q : ∀ w,
  (∀ g', g ≠ g' → same_guild g' w (play_next_from env g q w).1)
  ∧ VoiceClient.channel <$> voice_clients (play_next_from env g q w).1 !! g
    = VoiceClient.channel <$> voice_clients w !! g.
Proof.
  induction q as [|s rest IH]; intros w; simpl.
  { split; [intros; apply same_guild_refl|done]. }
  destruct (voice_clients w !! g) as [vc|] eqn:Hvc.
  2:{ simpl. rewrite Hvc. split; [intros; apply same_guild_refl|done]. }
  destruct (YTDLSource.from_url env (url s)) as [src|].
  - destruct (negb (opus_is_loaded env)); [|destruct (VoiceClient.is_playing vc)];
      simpl; rewrite ?Hvc, ?lookup_insert_eq; (split; [intros g' Hne|done]);
      try by apply same_guild_set_queue.
    eapply same_guild_trans; [by apply same_guild_set_queue|].
    by apply same_guild_set_voice_client.
  - destruct rest as [|s' rest'].
    + simpl. rewrite Hvc. split; [intros; by apply same_guild_set_queue|done].
    + destruct (IH (set_queue g (s' :: rest') w)) as [Hframe Hch].
      destruct (play_next_from env g (s' :: rest') (set_queue g (s' :: rest') w))
        as [w2 evs]. simpl in *. rewrite Hch, Hvc. split; [|done].
      intros g' Hne. eapply same_guild_trans; [|by apply Hframe].
      by apply same_guild_set_queue.
Qed.

(** X1: a command issued in one guild leaves the queue and the voice
    client of every other guild as they were. *)
Theorem commands_touch_only_their_guild env i query v w g' :
  guild i ≠ g' →
  same_guild g' w (play env i query w).1
  ∧ same_guild g' w (stop i w).1
  ∧ same_guild g' w (skip i w).1
  ∧ same_guild g' w (volume i v w).1.
Proof.
  intros Hne. split_and!.
  - unfold play. destruct (user_voice i) as [c|]; [|apply same_guild_refl].
    destruct (extract_info env (search_query query) ≫= first_entry) as [d|];
      [|by apply same_guild_ensure_queue].
    set (w2 := set_queue _ _ _).
    assert (H2 : same_guild g' w w2).
    { eapply same_guild_trans; [by apply same_guild_ensure_queue|].
      by apply same_guild_set_queue. }
    pose proof (same_guild_ensure_connected env (guild i) g' c w2) as H3.
    destruct (ensure_connected env (guild i) c w2) as [[w3|] conn]; [|done].
    specialize (H3 w3 Hne eq_refl).
    destruct (negb (is_playing (guild i) w3)).
    + destruct (play_next_from_frame env (guild i) (pending (guild i) w3) w3)
        as [H4 _]. specialize (H4 g' Hne). unfold play_next_song.
      destruct (play_next_from env (guild i) (pending (guild i) w3) w3). simpl in *.
      eauto using same_guild_trans.
    + simpl. eauto using same_guild_trans.
  - destruct (voice_clients w !! guild i) as [vc|] eqn:Hvc.
    + rewrite (stop_connected i w vc Hvc). split; simpl.
      * destruct (music_queues w !! guild i); [by rewrite lookup_insert_ne|done].
      * by rewrite lookup_delete_ne.
    + unfold stop. rewrite Hvc. apply same_guild_refl.
  - unfold skip. destruct (is_playing (guild i) w); simpl.
    + by apply same_guild_vc_stop.
    + apply same_guild_refl.
  - unfold volume. destruct ((v <? 0) || (100 <? v)); [apply same_guild_refl|].
    destruct (voice_clients w !! guild i) as [vc|]; [|apply same_guild_refl].
    destruct (VoiceClient.player vc); [|apply same_guild_refl].
    by apply same_guild_set_voice_client.
Qed.

Lemma commands_touch_only_their_guild_witness :
  let w := two_guilds in
  same_guild 2 w (play Demo.env Demo.alice "C" w).1
  ∧ same_guild 2 w (stop Demo.alice w).1
  ∧ same_guild 2 w (skip Demo.alice w).1
  ∧ same_guild 2 w (volume Demo.alice 80 w).1.
Proof.
  apply (commands_touch_only_their_guild Demo.env Demo.alice "C" 80
           two_guilds 2).
  simpl. lia.
Defined.

(** X2: what happens in one guild outside the commands, a stream ending,
    its callback running, the bot being removed, leaves the queue and
    the voice client of every other guild as they were. *)
Theorem events_touch_only_their_guild env g err cb w g' :
  g ≠ g' → cb_guild cb = g →
  same_guild g' w (stream_ends g err w)
  ∧ same_guild g' w (after_playing env cb w).1
  ∧ same_guild g' w (on_guild_remove g w).
Proof.
  intros Hne <-. split_and!.
  - unfold stream_ends. destruct (voice_clients w !! cb_guild cb) as [vc|];
      [|apply same_guild_refl].
    destruct (VoiceClient.player vc) as [p|]; [|apply same_guild_refl].
    destruct (ended p); [apply same_guild_refl|].
    split; simpl; [done|by rewrite lookup_insert_ne].
  - rewrite after_playing_fst. unfold play_next_song.
    by apply play_next_from_frame.
  - split; simpl; [by rewrite lookup_delete_ne|done].
Qed.

Lemma events_touch_only_their_guild_witness :
  let w := two_guilds in
  let cb := {| cb_guild := 1; cb_song := Demo.song "A"; cb_error := None |} in
  same_guild 2 w (stream_ends 1 None w)
  ∧ same_guild 2 w (after_playing Demo.env cb w).1
  ∧ same_guild 2 w (on_guild_remove 1 w).
Proof.
  apply (events_touch_only_their_guild Demo.env 1 None
           {| cb_guild := 1; cb_song := Demo.song "A"; cb_error := None |}
           two_guilds 2).
  - simpl. lia.
  - reflexivity.
Defined.

(** ** More on [/play] *)

(** Where [/play] leaves the voice client of the guild, once the
    extraction has succeeded: in the channel of the user when the join
    succeeds; as it was, with the reply that the query cannot be
    processed and the song left in the queue, when the join fails. *)
Lemma play_channel env i query w c d :
  user_voice i = Some c →
  extract_info env (search_query query) ≫= first_entry = Some d →
  (can_join env (guild i) c = true →
   VoiceClient.channel <$> voice_clients (play env i query w).1 !! guild i
   = Some c)
  ∧ (can_join env (guild i) c = false →
     VoiceClient.channel <$> voice_clients w !! guild i ≠ Some c →
     voice_clients (play env i query w).1 = voice_clients w
     ∧ pending (guild i) (play env i query w).1
       = pending (guild i) w ++ [make_song i query d]
     ∧ sources_played (play env i query w).2 = []
     ∧ last (play env i query w).2
       = Some (EditResponse (MsgCannotProcess query))).
Proof.
  intros Hv Hd. unfold play. rewrite Hv, Hd.
  set (w2 := set_queue _ _ _).
  assert (Hvc2 : voice_clients w2 = voice_clients w).
  { unfold w2, ensure_queue. simpl. by destruct (music_queues w !! guild i). }
  assert (Hq2 : pending (guild i) w2 = pending (guild i) w ++ [make_song i query d]).
  { unfold w2. by rewrite pending_set_queue, pending_ensure_queue. }
  destruct (ensure_connected_events env (guild i) c w2) as (_ & _ & Hsp).
  pose proof (ensure_connected_Some env (guild i) c w2) as Hsome.
  pose proof (ensure_connected_None env (guild i) c w2) as Hnone.
  rewrite Hvc2 in Hnone.
  destruct (ensure_connected env (guild i) c w2) as [[w3|] conn]; simpl in *.
  - destruct (Hsome w3 eq_refl) as ((vc & Hvc & Hch & _) & _).
    split.
    + intros _. destruct (negb (is_playing (guild i) w3)).
      * destruct (play_next_from_frame env (guild i) (pending (guild i) w3) w3)
          as [_ Hfr]. unfold play_next_song.
        destruct (play_next_from env (guild i) (pending (guild i) w3) w3).
        simpl in *. by rewrite Hfr, Hvc, <- Hch.
      * simpl. by rewrite Hvc, <- Hch.
    + intros Hno Hne. destruct Hnone as [_ Hnone].
      by specialize (Hnone (conj Hno Hne)).
  - destruct Hnone as [Hnone _]. destruct (Hnone eq_refl) as [Hno Hne].
    split; [congruence|]. intros _ _. split_and!; try done.
    + by rewrite sources_played_app, Hsp.
    + by rewrite !app_comm_cons, last_snoc.
Qed.

(** X3: once the extraction of the query has succeeded, where [/play]
    leaves the bot depends on the join.  If [connect] or [move_to]
    succeeds, the bot ends up in the voice channel of the user who
    asked.  If the bot is not in that channel and the join fails, the
    voice clients are left as they were, nothing is started, the song
    stays in the queue, and the last reply is that the query cannot be
    processed. *)
Theorem play_joins_user_channel env i query w c d :
  user_voice i = Some c →
  extract_info env (search_query query) ≫= first_entry = Some d →
  (can_join env (guild i) c = true →
   VoiceClient.channel <$> voice_clients (play env i query w).1 !! guild i
   = Some c)
  ∧ (can_join env (guild i) c = false →
     VoiceClient.channel <$> voice_clients w !! guild i ≠ Some c →
     voice_clients (play env i query w).1 = voice_clients w
     ∧ pending (guild i) (play env i query w).1
       = pending (guild i) w ++ [make_song i query d]
     ∧ sources_played (play env i query w).2 = []
     ∧ last (play env i query w).2
       = Some (EditResponse (MsgCannotProcess query))).
Proof. apply play_channel. Qed.

Lemma play_joins_user_channel_witness :
  let bob := {| user := "<@bob>"; user_voice := Some 8; guild := 1 |} in
  let closed := {| extract_info := Demo.extract; opus_is_loaded := true;
                   can_join := λ _ _, false |} in
  VoiceClient.channel
    <$> voice_clients (play Demo.env bob "C" two_guilds).1 !! 1 = Some 8
  ∧ voice_clients (play closed bob "C" two_guilds).1 = voice_clients two_guilds
  ∧ pending 1 (play closed bob "C" two_guilds).1
    = pending 1 two_guilds ++ [make_song bob "C" (Demo.track "C")]
  ∧ sources_played (play closed bob "C" two_guilds).2 = []
  ∧ last (play closed bob "C" two_guilds).2
    = Some (EditResponse (MsgCannotProcess "C")).
Proof.
  intros bob closed. split.
  - apply (proj1 (play_joins_user_channel Demo.env bob "C" two_guilds 8
                    (Demo.track "C") eq_refl eq_refl)).
    reflexivity.
  - apply (proj2 (play_joins_user_channel closed bob "C" two_guilds 8
                    (Demo.track "C") eq_refl eq_refl)).
    + reflexivity.
    + vm_compute. discriminate.
Defined.

(** X4: a request made while a stream is playing does not interrupt it,
    also when the user sits in another channel and the bot moves there:
    the source being played is the same afterwards, still playing, and
    the new song is the last of the queue. *)
Theorem play_does_not_interrupt env i query w c d :
  user_voice i = Some c →
  is_playing (guild i) w = true →
  extract_info env (search_query query) ≫= first_entry = Some d →
  current (guild i) (play env i query w).1 = current (guild i) w
  ∧ is_playing (guild i) (play env i query w).1 = true
  ∧ pending (guild i) (play env i query w).1
    = pending (guild i) w ++ [make_song i query d]
  ∧ started (play env i query w).2 = [].
Proof.
  intros Hv Hp Hd.
  destruct (play_while_playing env i query w c d Hv Hp Hd)
    as (w' & conn & reply & Hplay & Hst & _ & Hp' & Hc' & Hq' & _).
  rewrite Hplay. simpl. split_and!; try done.
  by rewrite started_app, Hst.
Qed.

Lemma play_does_not_interrupt_witness :
  let i := {| user := "<@bob>"; user_voice := Some 8; guild := 1 |} in
  let w := two_guilds in
  current 1 (play Demo.env i "C" w).1 = current 1 w
  ∧ is_playing 1 (play Demo.env i "C" w).1 = true
  ∧ pending 1 (play Demo.env i "C" w).1
    = pending 1 w ++ [make_song i "C" (Demo.track "C")]
  ∧ started (play Demo.env i "C" w).2 = [].
Proof.
  apply (play_does_not_interrupt Demo.env
           {| user := "<@bob>"; user_voice := Some 8; guild := 1 |}
           "C" two_guilds 8 (Demo.track "C")); reflexivity.
Defined.

(** X5: [/play] never reorders the queue: after a successful extraction
    the pending songs are what was pending before followed by the new
    song, less the songs [play_next_song] has taken from the head. *)
Theorem play_keeps_queue_order env i query w c d :
  user_voice i = Some c →
  extract_info env (search_query query) ≫= first_entry = Some d →
  ∃ n, pending (guild i) (play env i query w).1
       = drop n (pending (guild i) w ++ [make_song i query d]).
Proof.
  intros Hv Hd. unfold play. rewrite Hv, Hd.
  set (w2 := set_queue _ _ _).
  assert (Hq2 : pending (guild i) w2 = pending (guild i) w ++ [make_song i query d]).
  { unfold w2. by rewrite pending_set_queue, pending_ensure_queue. }
  pose proof (ensure_connected_Some env (guild i) c w2) as Hsome.
  destruct (ensure_connected env (guild i) c w2) as [[w3|] conn]; simpl in *.
  2:{ exists 0%nat. by rewrite drop_0. }
  destruct (Hsome w3 eq_refl) as (_ & _ & _ & _ & Hmq & _).
  assert (Hq3 : pending (guild i) w3 = pending (guild i) w ++ [make_song i query d]).
  { rewrite <- Hq2. unfold pending. by rewrite Hmq. }
  destruct (negb (is_playing (guild i) w3)).
  - destruct (play_next_from_attempts env (guild i) (pending (guild i) w3) w3 eq_refl)
      as (n & _ & _ & Hq4 & _). unfold play_next_song.
    destruct (play_next_from env (guild i) (pending (guild i) w3) w3).
    simpl in *. exists n. by rewrite Hq4, Hq3.
  - exists 0%nat. by rewrite drop_0.
Qed.

Lemma play_keeps_queue_order_witness :
  ∃ n, pending 1 (play Demo.env Demo.alice "C" two_guilds).1
       = drop n (pending 1 two_guilds
                 ++ [make_song Demo.alice "C" (Demo.track "C")]).
Proof.
  apply (play_keeps_queue_order Demo.env Demo.alice "C" two_guilds 7
           (Demo.track "C")); reflexivity.
Defined.

(** ** When [play_next_song] starts nothing *)

Lemma play_next_from_without_opus env g q : ∀ w,
  opus_is_loaded env = false →
  voice_clients (play_next_from env g q w).1 = voice_clients w
  ∧ sources_played (play_next_from env g q w).2 = []
  ∧ started (play_next_from env g q w).2 = [].
Proof.
  induction q as [|s rest IH]; intros w Hopus; [done|]. simpl.
  destruct (voice_clients w !! g) as [vc|]; [|done].
  destruct (YTDLSource.from_url env (url s)).
  - by rewrite Hopus.
  - destruct rest as [|s' rest']; [done|].
    specialize (IH (set_queue g (s' :: rest') w) Hopus).
    by destruct (play_next_from env g (s' :: rest') (set_queue g (s' :: rest') w)).
Qed.

(** X6: when the opus library is not loaded, [play_next_song] never
    starts a stream, but it does not keep the queue either: with a voice
    client and songs pending, every call takes at least one song from
    the queue, and that song is lost. *)
Theorem without_opus_songs_are_lost env g w :
  opus_is_loaded env = false →
  voice_clients (play_next_song env g w).1 = voice_clients w
  ∧ sources_played (play_next_song env g w).2 = []
  ∧ started (play_next_song env g w).2 = []
  ∧ (is_Some (voice_clients w !! g) → pending g w ≠ [] →
     (length (pending g (play_next_song env g w).1) < length (pending g w))%nat).
Proof.
  intros Hopus. unfold play_next_song.
  destruct (play_next_from_without_opus env g (pending g w) w Hopus)
    as (? & ? & ?).
  split_and!; try done. intros Hvc Hne.
  destruct (play_next_from_attempts env g (pending g w) w eq_refl)
    as (n & Hn & _ & -> & Hpos & _).
  specialize (Hpos Hne Hvc). rewrite length_drop.
  destruct (pending g w); [done|]. simpl in *. lia.
Qed.

Lemma without_opus_songs_are_lost_witness :
  let env := {| extract_info := Demo.extract; opus_is_loaded := false;
     can_join := λ _ _, true |} in
  let w := Demo.connected [Demo.song "B"; Demo.song "C"] in
  voice_clients (play_next_song env 1 w).1 = voice_clients w
  ∧ sources_played (play_next_song env 1 w).2 = []
  ∧ started (play_next_song env 1 w).2 = []
  ∧ (is_Some (voice_clients w !! 1) → pending 1 w ≠ [] →
     (length (pending 1 (play_next_song env 1 w).1) < length (pending 1 w))%nat).
Proof.
  apply (without_opus_songs_are_lost
           {| extract_info := Demo.extract; opus_is_loaded := false;
     can_join := λ _ _, true |} 1
           (Demo.connected [Demo.song "B"; Demo.song "C"])).
  reflexivity.
Defined.




(** X8: a stream that dies is followed up exactly as one that ends
    cleanly: apart from the line logged first, the callback does the
    same and leaves the same state. *)
Theorem player_error_advances_like_finish env g err w :
  callbacks w = [] →
  (run_callback env (stream_ends g (Some err) w)).1
  = (run_callback env (stream_ends g None w)).1
  ∧ tail (run_callback env (stream_ends g (Some err) w)).2
    = tail (run_callback env (stream_ends g None w)).2.
Proof.
  intros Hcb. unfold stream_ends.
  destruct (voice_clients w !! g) as [vc|]; [|done].
  destruct (VoiceClient.player vc) as [p|]; [|done].
  destruct (ended p); [done|].
  rewrite Hcb. unfold run_callback, after_playing. simpl.
  by destruct (play_next_song env g _).
Qed.

Lemma player_error_advances_like_finish_witness :
  let w := Demo.playing_A [Demo.song "B"] in
  (run_callback Demo.env (stream_ends 1 (Some "broken pipe"%string) w)).1
  = (run_callback Demo.env (stream_ends 1 None w)).1
  ∧ tail (run_callback Demo.env (stream_ends 1 (Some "broken pipe"%string) w)).2
    = tail (run_callback Demo.env (stream_ends 1 None w)).2.
Proof.
  apply (player_error_advances_like_finish Demo.env 1 "broken pipe"
           (Demo.playing_A [Demo.song "B"])).
  reflexivity.
Defined.

(** ** Skip *)

(** What [/skip] and the callback it provokes do to a guild that is
    streaming, when nothing else is waiting on the event loop. *)
Lemma skip_then_callback env i w :
  is_playing (guild i) w = true → callbacks w = [] →
  ∃ vc p cb w1,
    voice_clients w !! guild i = Some vc ∧ VoiceClient.player vc = Some p
    ∧ skip i w = (vc_stop (guild i) w, [Stop (guild i); SendMessage MsgSkipped])
    ∧ music_queues (vc_stop (guild i) w) = music_queues w
    ∧ is_playing (guild i) (vc_stop (guild i) w) = false
    ∧ run_callback env (vc_stop (guild i) w) = after_playing env cb w1
    ∧ cb_guild cb = guild i ∧ callbacks w1 = []
    ∧ music_queues w1 = music_queues w
    ∧ voice_clients w1 !! guild i
      = Some {| VoiceClient.channel := VoiceClient.channel vc;
                VoiceClient.player := None |}.
Proof.
  intros Hp Hcb. destruct (is_playing_inv _ _ Hp) as (vc & p & Hvc & Hpl & He).
  exists vc, p, (callback_of (guild i) None p),
    {| music_queues := music_queues w;
       voice_clients :=
         <[guild i := {| VoiceClient.channel := VoiceClient.channel vc;
                         VoiceClient.player := None |}]> (voice_clients w);
       callbacks := [] |}.
  rewrite (vc_stop_player _ _ _ _ Hvc Hpl), He, Hcb.
  split_and!; try done.
  - unfold skip. by rewrite Hp, (vc_stop_player _ _ _ _ Hvc Hpl), He, Hcb.
  - unfold is_playing. simpl. by rewrite lookup_insert_eq.
  - simpl. by rewrite lookup_insert_eq.
Qed.

(** X9: [/skip] itself only halts the stream; the queue is untouched.
    The callback of the halted stream then starts the next pending song:
    if that song resolves, it is the one playing afterwards, in the same
    channel, and the songs behind it still wait in their order. *)
Theorem skip_starts_next_song env i w s rest src :
  opus_is_loaded env = true →
  is_playing (guild i) w = true → callbacks w = [] →
  pending (guild i) w = s :: rest →
  YTDLSource.from_url env (url s) = Some src →
  let w1 := (skip i w).1 in
  let w2 := (run_callback env w1).1 in
  pending (guild i) w1 = s :: rest
  ∧ is_playing (guild i) w1 = false
  ∧ current (guild i) w2 = Some src
  ∧ is_playing (guild i) w2 = true
  ∧ pending (guild i) w2 = rest
  ∧ started (run_callback env w1).2 = [s]
  ∧ VoiceClient.channel <$> voice_clients w2 !! guild i
    = VoiceClient.channel <$> voice_clients w !! guild i.
Proof.
  intros Hopus Hp Hcb Hq Hsrc.
  destruct (skip_then_callback env i w Hp Hcb)
    as (vc & p & cb & w1 & Hvc & Hpl & -> & Hmq & Hidle & Hrun & Hg & Hcb1
        & Hmq1 & Hvc1).
  simpl. rewrite Hrun, after_playing_fst, started_after_playing, Hg.
  assert (Hq1 : pending (guild i) w1 = s :: rest).
  { rewrite <- Hq. unfold pending. by rewrite Hmq1. }
  destruct (play_next_from_skips env (guild i) _ [] s rest src w1 Hvc1)
    as (Hq2 & Hc2 & Hp2 & Hst2 & _); try done.
  destruct (play_next_from_frame env (guild i) (s :: rest) w1) as [_ Hch].
  unfold play_next_song. rewrite Hq1. simpl in *.
  split_and!; try done.
  - rewrite <- Hq. unfold pending. by rewrite Hmq.
  - by rewrite Hch, Hvc1, Hvc.
Qed.

Lemma skip_starts_next_song_witness :
  let w := Demo.playing_A [Demo.song "B"; Demo.song "C"] in
  let w1 := (skip Demo.alice w).1 in
  let w2 := (run_callback Demo.env w1).1 in
  pending 1 w1 = Demo.song "B" :: [Demo.song "C"]
  ∧ is_playing 1 w1 = false
  ∧ current 1 w2 = Some (Demo.source_of "B")
  ∧ is_playing 1 w2 = true
  ∧ pending 1 w2 = [Demo.song "C"]
  ∧ started (run_callback Demo.env w1).2 = [Demo.song "B"]
  ∧ VoiceClient.channel <$> voice_clients w2 !! 1
    = VoiceClient.channel <$> voice_clients w !! 1.
Proof.
  apply (skip_starts_next_song Demo.env Demo.alice
           (Demo.playing_A [Demo.song "B"; Demo.song "C"])
           (Demo.song "B") [Demo.song "C"] (Demo.source_of "B"));
    reflexivity.
Defined.

(** X10: skipping the last song leaves the bot idle but connected: after
    [/skip] and the callback nothing plays, nothing is pending, the
    voice client is still in its channel, and [disconnect] was not
    called. *)
Theorem skip_of_last_song_stays_connected env i w :
  is_playing (guild i) w = true → callbacks w = [] →
  pending (guild i) w = [] →
  let w1 := (skip i w).1 in
  let w2 := (run_callback env w1).1 in
  is_playing (guild i) w2 = false
  ∧ current (guild i) w2 = None
  ∧ pending (guild i) w2 = []
  ∧ VoiceClient.channel <$> voice_clients w2 !! guild i
    = VoiceClient.channel <$> voice_clients w !! guild i
  ∧ is_Some (voice_clients w2 !! guild i)
  ∧ disconnects ((skip i w).2 ++ (run_callback env w1).2) = 0%nat.
Proof.
  intros Hp Hcb Hq.
  destruct (skip_then_callback env i w Hp Hcb)
    as (vc & p & cb & w1 & Hvc & Hpl & -> & Hmq & Hidle & Hrun & Hg & Hcb1
        & Hmq1 & Hvc1).
  simpl. rewrite Hrun.
  assert (Hq1 : pending (guild i) w1 = []).
  { rewrite <- Hq. unfold pending. by rewrite Hmq1. }
  unfold after_playing, play_next_song. rewrite Hg, Hq1. simpl.
  unfold is_playing, current. rewrite Hvc1, Hvc. simpl.
  split_and!; done.
Qed.

Lemma skip_of_last_song_stays_connected_witness :
  let w := Demo.playing_A [] in
  let w1 := (skip Demo.alice w).1 in
  let w2 := (run_callback Demo.env w1).1 in
  is_playing 1 w2 = false
  ∧ current 1 w2 = None
  ∧ pending 1 w2 = []
  ∧ VoiceClient.channel <$> voice_clients w2 !! 1
    = VoiceClient.channel <$> voice_clients w !! 1
  ∧ is_Some (voice_clients w2 !! 1)
  ∧ disconnects ((skip Demo.alice w).2 ++ (run_callback Demo.env w1).2) = 0%nat.
Proof.
  apply (skip_of_last_song_stays_connected Demo.env Demo.alice
           (Demo.playing_A [])); reflexivity.
Defined.

(** ** After [/stop], after leaving a guild *)

(** X11: after [/stop] the guild is idle for every other command: a
    second [/stop] and a [/skip] are refused and change nothing,
    [/nowplaying] reports that nothing plays, and, when [/stop] found a
    voice client, [/queue] reports an empty queue. *)
Theorem after_stop_all_is_idle i w :
  stop i (stop i w).1 = ((stop i w).1, [SendMessage MsgNotConnected])
  ∧ skip i (stop i w).1 = ((stop i w).1, [SendMessage MsgNothingPlaying])
  ∧ nowplaying i (stop i w).1 = NothingPlaying
  ∧ (is_Some (voice_clients w !! guild i) → queue i (stop i w).1 = QueueEmpty).
Proof.
  assert (Hvc' : voice_clients (stop i w).1 !! guild i = None).
  { destruct (voice_clients w !! guild i) as [vc|] eqn:Hvc.
    - rewrite (stop_connected i w vc Hvc). simpl. apply lookup_delete_eq.
    - unfold stop. by rewrite Hvc. }
  split_and!.
  - unfold stop at 1. by rewrite Hvc'.
  - unfold skip, is_playing. by rewrite Hvc'.
  - unfold nowplaying. by rewrite Hvc'.
  - intros [vc Hvc]. pose proof (pending_after_stop i w vc Hvc) as Hq.
    unfold pending in Hq. unfold queue.
    destruct (music_queues (stop i w).1 !! guild i) as [[|]|]; done.
Qed.

Lemma after_stop_all_is_idle_witness :
  let w := two_guilds in
  stop Demo.alice (stop Demo.alice w).1
  = ((stop Demo.alice w).1, [SendMessage MsgNotConnected])
  ∧ skip Demo.alice (stop Demo.alice w).1
    = ((stop Demo.alice w).1, [SendMessage MsgNothingPlaying])
  ∧ nowplaying Demo.alice (stop Demo.alice w).1 = NothingPlaying
  ∧ queue Demo.alice (stop Demo.alice w).1 = QueueEmpty.
Proof.
  intros w.
  destruct (after_stop_all_is_idle Demo.alice w) as (H1 & H2 & H3 & H4).
  split_and!; [exact H1|exact H2|exact H3|].
  apply H4. eexists. reflexivity.
Defined.

(** X12: once the bot has been removed from a guild, a callback of that
    guild that still runs finds no songs: [play_next_song] changes
    nothing and starts nothing, whatever was queued before.  Removing
    the entry twice is the same as removing it once, and [/queue]
    reports an empty queue. *)
Theorem guild_removed_stops_advance env g i w :
  play_next_song env g (on_guild_remove g w)
  = (on_guild_remove g w, [Log LogNoSongs])
  ∧ on_guild_remove g (on_guild_remove g w) = on_guild_remove g w
  ∧ (guild i = g → queue i (on_guild_remove g w) = QueueEmpty).
Proof.
  split_and!.
  - unfold play_next_song, pending, on_guild_remove at 1. simpl.
    by rewrite lookup_delete_eq.
  - unfold on_guild_remove. simpl. by rewrite delete_delete_eq.
  - intros <-. unfold queue, on_guild_remove. simpl.
    by rewrite lookup_delete_eq.
Qed.

Lemma guild_removed_stops_advance_witness :
  play_next_song Demo.env 1 (on_guild_remove 1 two_guilds)
  = (on_guild_remove 1 two_guilds, [Log LogNoSongs])
  ∧ queue Demo.alice (on_guild_remove 1 two_guilds) = QueueEmpty.
Proof.
  destruct (guild_removed_stops_advance Demo.env 1 Demo.alice two_guilds)
    as (H1 & _ & H3).
  split; [exact H1|]. apply H3. reflexivity.
Defined.

(** ** Volume *)

(** X13: [/volume] changes nothing but a volume: the queues, the waiting
    callbacks, the channels, and which source each guild plays and
    whether it is playing are what they were, for every value given. *)
Theorem volume_changes_only_the_volume i v w :
  music_queues (volume i v w).1 = music_queues w
  ∧ callbacks (volume i v w).1 = callbacks w
  ∧ ∀ g, is_playing g (volume i v w).1 = is_playing g w
         ∧ VoiceClient.channel <$> voice_clients (volume i v w).1 !! g
           = VoiceClient.channel <$> voice_clients w !! g
         ∧ ∀ x, YTDLSource.set_volume x <$> current g (volume i v w).1
                = YTDLSource.set_volume x <$> current g w.
Proof.
  unfold volume. destruct ((v <? 0) || (100 <? v)); [done|].
  destruct (voice_clients w !! guild i) as [vc|] eqn:Hvc; [|done].
  destruct (VoiceClient.player vc) as [p|] eqn:Hp; [|done].
  simpl. split_and!; try done. intros g.
  unfold is_playing, current. simpl.
  destruct (decide (guild i = g)) as [<-|Hne].
  - rewrite lookup_insert_eq, Hvc. unfold VoiceClient.is_playing, VoiceClient.current.
    simpl. by rewrite Hp.
  - by rewrite lookup_insert_ne.
Qed.

(** ** An invariant of the sources *)

Lemma from_url_ok env u s : YTDLSource.from_url env u = Some s → source_ok s.
Proof.
  unfold YTDLSource.from_url. destruct u as [u|]; [|done].
  destruct (extract_info env u) as [d|]; [|done].
  destruct (first_entry d) as [d'|]; [|done].
  destruct (info_url d') as [|[f|]] eqn:Hf; try done. intros [= <-].
  unfold source_ok, YTDLSource.init. simpl. rewrite Hf.
  split_and!; try done.
Qed.

Lemma set_volume_ok v s :
  0 ≤ v ≤ 100 → source_ok s →
  source_ok (YTDLSource.set_volume (Q2Qc (Qmake v 100)) s).
Proof.
  intros Hv (_ & _ & Hu & Ht). unfold source_ok. simpl. split_and!; try done.
  - change (Qred 0 <= Qred (v # 100))%Q. apply Qred_le. unfold Qle. simpl. lia.
  - change (Qred (v # 100) <= Qred 1)%Q. apply Qred_le. unfold Qle. simpl. lia.
Qed.

(** After [play_next_song], a guild plays what it played before or a
    source that [from_url] has just built. *)
Lemma play_next_from_current env g q : ∀ w g',
  current g' (play_next_from env g q w).1 = current g' w
  ∨ ∃ u s, YTDLSource.from_url env u = Some s
           ∧ current g' (play_next_from env g q w).1 = Some s.
Proof.
  induction q as [|s rest IH]; intros w g'; simpl; [by left|].
  destruct (voice_clients w !! g) as [vc|] eqn:Hvc; [|by left].
  destruct (YTDLSource.from_url env (url s)) as [src|] eqn:Hsrc.
  - destruct (negb (opus_is_loaded env)); [by left|].
    destruct (VoiceClient.is_playing vc); [by left|].
    unfold current. simpl. destruct (decide (g = g')) as [<-|Hne].
    + right. exists (url s), src. by rewrite lookup_insert_eq.
    + left. by rewrite lookup_insert_ne.
  - destruct rest as [|s' rest']; [by left|].
    specialize (IH (set_queue g (s' :: rest') w) g').
    by destruct (play_next_from env g (s' :: rest') (set_queue g (s' :: rest') w)).
Qed.

Lemma step_keeps_sources env a w :
  (∀ g s, current g w = Some s → source_ok s) →
  ∀ g s, current g (step env a w) = Some s → source_ok s.
Proof.
  intros Hok g s. destruct a as [i query|i|i|i v|g0|g0 err|]; simpl.
  - (* play *)
    unfold play. destruct (user_voice i) as [c|]; [|apply Hok].
    destruct (extract_info env (search_query query) ≫= first_entry) as [d|].
    2:{ unfold ensure_queue. destruct (music_queues w !! guild i); apply Hok. }
    set (w2 := set_queue _ _ _).
    assert (H2 : ∀ g, current g w2 = current g w).
    { intros g1. unfold w2, ensure_queue, current. simpl.
      by destruct (music_queues w !! guild i). }
    pose proof (ensure_connected_Some env (guild i) c w2) as Hsome.
    destruct (ensure_connected env (guild i) c w2) as [[w3|] conn]; simpl in *.
    2:{ rewrite H2. apply Hok. }
    assert (H3 : ∀ g, current g w3 = current g w).
    { intros g1. rewrite <- H2. by apply Hsome. }
    destruct (negb (is_playing (guild i) w3)).
    + pose proof (play_next_from_current env (guild i) (pending (guild i) w3) w3 g)
        as Hc. unfold play_next_song.
      destruct (play_next_from env (guild i) (pending (guild i) w3) w3). simpl in *.
      destruct Hc as [-> | (u & s' & Hs' & ->)].
      * rewrite H3. apply Hok.
      * intros [= <-]. by apply (from_url_ok env u).
    + simpl. rewrite H3. apply Hok.
  - (* stop *)
    destruct (voice_clients w !! guild i) as [vc|] eqn:Hvc.
    + rewrite (stop_connected i w vc Hvc). unfold current. simpl.
      destruct (decide (guild i = g)) as [<-|Hne].
      * by rewrite lookup_delete_eq.
      * rewrite lookup_delete_ne by done. apply Hok.
    + unfold stop. rewrite Hvc. apply Hok.
  - (* skip *)
    unfold skip. destruct (is_playing (guild i) w); [|apply Hok]. simpl.
    unfold vc_stop. destruct (voice_clients w !! guild i) as [vc|] eqn:Hvc;
      [|apply Hok].
    destruct (VoiceClient.player vc); [|apply Hok].
    unfold current. simpl. destruct (decide (guild i = g)) as [<-|Hne].
    + by rewrite lookup_insert_eq.
    + rewrite lookup_insert_ne by done. apply Hok.
  - (* volume *)
    unfold volume. destruct ((v <? 0) || (100 <? v)) eqn:Hv; [apply Hok|].
    destruct (voice_clients w !! guild i) as [vc|] eqn:Hvc; [|apply Hok].
    destruct (VoiceClient.player vc) as [p|] eqn:Hp; [|apply Hok].
    unfold current. simpl. destruct (decide (guild i = g)) as [<-|Hne].
    + rewrite lookup_insert_eq. simpl. intros [= <-].
      apply set_volume_ok; [lia|]. apply (Hok (guild i)).
      unfold current, VoiceClient.current. rewrite Hvc. simpl. by rewrite Hp.
    + rewrite lookup_insert_ne by done. apply Hok.
  - (* the bot is removed from a guild *)
    apply Hok.
  - (* a stream ends *)
    unfold stream_ends. destruct (voice_clients w !! g0) as [vc|] eqn:Hvc;
      [|apply Hok].
    destruct (VoiceClient.player vc) as [p|] eqn:Hp; [|apply Hok].
    destruct (ended p); [apply Hok|].
    unfold current. simpl. destruct (decide (g0 = g)) as [<-|Hne].
    + rewrite lookup_insert_eq. simpl. intros [= <-]. apply (Hok g0).
      unfold current, VoiceClient.current. rewrite Hvc. simpl. by rewrite Hp.
    + rewrite lookup_insert_ne by done. apply Hok.
  - (* a callback runs *)
    unfold run_callback. destruct (callbacks w) as [|cb rest]; [apply Hok|].
    rewrite after_playing_fst. unfold play_next_song.
    set (w1 := {| music_queues := music_queues w; voice_clients := voice_clients w;
                  callbacks := rest |}).
    destruct (play_next_from_current env (cb_guild cb) (pending (cb_guild cb) w1) w1 g)
      as [-> | (u & s' & Hs' & ->)].
    + apply Hok.
    + intros [= <-]. by apply (from_url_ok env u).
Qed.

(** X14: whatever the users and the streams do, in whatever order, a
    source held by a voice client has a volume between 0 and 1, and it
    streams the [url] of the info whose title it shows. *)
Theorem sources_stay_well_formed env acts g s :
  current g (run env acts initial) = Some s → source_ok s.
Proof.
  unfold run. revert g s.
  induction acts as [|a acts IH] using rev_ind; intros g s.
  - done.
  - rewrite foldl_app. simpl. apply step_keeps_sources. apply IH.
Qed.

Lemma sources_stay_well_formed_witness :
  source_ok
    (YTDLSource.set_volume (Q2Qc (Qmake 80 100)) (Demo.source_of "B")).
Proof.
  apply (sources_stay_well_formed Demo.env
           [DoPlay Demo.alice "A"; DoPlay Demo.alice "B"; DoSkip Demo.alice;
            RunCallback; DoVolume Demo.alice 80] 1).
  vm_compute. reflexivity.
Defined.

(** ** The queue listing *)

(** X15: [/queue] lists the pending songs in the order of the queue,
    numbered from 1: the song at position [k] of the queue, for [k]
    below 10, is line [k] of the listing, with number [k + 1]; and the
    answer is "queue empty" exactly when nothing is pending. *)
Theorem queue_lists_in_order i w :
  (queue i w = QueueEmpty ↔ pending (guild i) w = [])
  ∧ (pending (guild i) w ≠ [] →
     queue i w = QueueEmbed (queue_text (pending (guild i) w)))
  ∧ ∀ k song, (k < 10)%nat → pending (guild i) w !! k = Some song →
      queue_list (pending (guild i) w) !! k = Some (queue_line (S k) song).
Proof.
  unfold queue, pending. split_and!.
  - destruct (music_queues w !! guild i) as [[|s q]|]; simpl; split; done.
  - destruct (music_queues w !! guild i) as [[|s q]|]; simpl; done.
  - intros k song Hk Hs. unfold queue_list.
    rewrite list_lookup_imap, lookup_take_lt by done. by rewrite Hs.
Qed.

Lemma queue_lists_in_order_witness :
  queue Demo.alice two_guilds
  = QueueEmbed (queue_text (pending 1 two_guilds))
  ∧ queue_list (pending 1 two_guilds) !! 0%nat
    = Some (queue_line 1 (Demo.song "B")).
Proof.
  destruct (queue_lists_in_order Demo.alice two_guilds) as (_ & H2 & H3).
  split.
  - apply H2. vm_compute. discriminate.
  - apply H3; [lia|reflexivity].
Defined.

(** X16: the listing never has more than 10 lines, and no pending song
    is forgotten: the lines and the count of "other songs" announced
    after them add up to the length of the queue. *)
Theorem queue_accounts_for_every_song (q : list Song) :
  length (queue_list q) = (10 `min` length q)%nat
  ∧ (length (queue_list q) + default 0%nat (queue_more q))%nat = length q
  ∧ (queue_more q = None ↔ (length q ≤ 10)%nat).
Proof.
  unfold queue_list, queue_more. rewrite length_imap, length_take.
  case_decide; cbn [from_option id]; split_and!; try lia;
    split; intros; try done; try lia; exfalso; lia.
Qed.

Lemma queue_line_shown_after_play env i query w c d :
  user_voice i = Some c →
  is_playing (guild i) w = true →
  extract_info env (search_query query) ≫= first_entry = Some d →
  pending (guild i) (play env i query w).1
  = pending (guild i) w ++ [make_song i query d].
Proof.
  intros Hv Hp Hd.
  destruct (play_while_playing env i query w c d Hv Hp Hd)
    as (w' & conn & reply & -> & _ & _ & _ & _ & Hq & _). done.
Qed.

(** X17: a song requested while another one plays shows up in [/queue]
    right behind the songs already pending, as long as fewer than 10
    songs were pending: its line carries the next number, the mention
    of the user, and as title what [data.get('title', 'Unknown')]
    gave, printed as an f-string prints it: the title of the info,
    "Unknown" when the info has no title key, "None" when the key holds
    [None]. *)
Theorem queued_song_is_listed env i query w c d :
  user_voice i = Some c →
  is_playing (guild i) w = true →
  extract_info env (search_query query) ≫= first_entry = Some d →
  (length (pending (guild i) w) < 10)%nat →
  (∃ text, queue i (play env i query w).1 = QueueEmbed text)
  ∧ queue_list (pending (guild i) (play env i query w).1)
      !! length (pending (guild i) w)
    = Some (pretty (S (length (pending (guild i) w))) +:+ ". **"
            +:+ match info_title d with
                | Absent => "Unknown"
                | Present None => "None"
                | Present (Some t) => t
                end +:+ "** - " +:+ user i).
Proof.
  intros Hv Hp Hd Hlen.
  pose proof (queue_line_shown_after_play env i query w c d Hv Hp Hd) as Hq.
  split_and!.
  - unfold queue. unfold pending in Hq at 1.
    destruct (music_queues (play env i query w).1 !! guild i) as [[|s q]|];
      simpl in Hq; try by eexists.
    + by destruct (pending (guild i) w).
    + by destruct (pending (guild i) w).
  - rewrite Hq. unfold queue_list.
    rewrite list_lookup_imap, lookup_take_lt by done.
    rewrite lookup_app_r, Nat.sub_diag by done. simpl.
    unfold queue_line, make_song. simpl.
    by destruct (info_title d) as [|[t|]].
Qed.

Lemma queued_song_is_listed_witness :
  let untitled q :=
    if String.eqb q "ytsearch:C"
    then Some {| entries := Absent; info_title := Present None;
                 info_duration := Absent; info_webpage_url := Absent;
                 info_url := Absent |}
    else None in
  let env := {| extract_info := untitled; opus_is_loaded := true;
                can_join := λ _ _, true |} in
  (∃ text, queue Demo.alice (play env Demo.alice "C" two_guilds).1
           = QueueEmbed text)
  ∧ queue_list (pending 1 (play env Demo.alice "C" two_guilds).1)
      !! length (pending 1 two_guilds)
    = Some (pretty (S (length (pending 1 two_guilds))) +:+ ". **"
            +:+ "None" +:+ "** - " +:+ user Demo.alice).
Proof.
  intros untitled env.
  apply (queued_song_is_listed env Demo.alice "C" two_guilds 7
           {| entries := Absent; info_title := Present None;
              info_duration := Absent; info_webpage_url := Absent;
              info_url := Absent |}); try reflexivity.
  vm_compute. lia.
Defined.

Example demo_queue_text :
  queue Demo.alice (play Demo.env Demo.alice "C" two_guilds).1
  = QueueEmbed ("1. **B** - <@alice>" +:+ newline +:+ "2. **C** - <@alice>").
Proof. vm_compute. reflexivity. Qed.

(** ** Now playing *)

(** X18: [/nowplaying] and [/skip] agree on whether something plays:
    the one reports that nothing is playing exactly when the other is
    refused. *)
Theorem nowplaying_agrees_with_skip i w :
  nowplaying i w = NothingPlaying
  ↔ skip i w = (w, [SendMessage MsgNothingPlaying]).
Proof.
  unfold nowplaying, skip, is_playing.
  destruct (voice_clients w !! guild i) as [vc|]; [|done].
  destruct (VoiceClient.is_playing vc); [|done].
  split; [|done].
  destruct (VoiceClient.current vc ≫= YTDLSource.title) as [t|]; [|done].
  by case_decide.
Qed.

(** X19: after a [/play] that started a song in an idle guild (the bot
    could join the channel, opus is loaded, the song resolves),
    [/nowplaying] shows the title of the stream that was resolved at
    play time, when it has one. *)
Theorem nowplaying_after_play env i query w c d src t :
  opus_is_loaded env = true →
  user_voice i = Some c →
  can_join env (guild i) c = true →
  is_playing (guild i) w = false →
  pending (guild i) w = [] →
  extract_info env (search_query query) ≫= first_entry = Some d →
  YTDLSource.from_url env (url (make_song i query d)) = Some src →
  YTDLSource.title src = Some t → t ≠ ""%string →
  nowplaying i (play env i query w).1 = NowPlayingTitle t.
Proof.
  intros Hopus Hv Hjoin Hidle Hq Hd Hsrc Ht Hne.
  destruct (play_when_idle env i query w c d src
              Hopus Hv Hjoin Hidle Hq Hd Hsrc)
    as (Hp & _ & _ & _ & Hcur & _).
  unfold nowplaying. unfold is_playing in Hp. unfold current in Hcur.
  destruct (voice_clients (play env i query w).1 !! guild i) as [vc|]; [|done].
  simpl in Hcur. rewrite Hp, Hcur. simpl. rewrite Ht. by case_decide.
Qed.

Lemma nowplaying_after_play_witness :
  nowplaying Demo.alice (play Demo.env Demo.alice "A" Demo.empty).1
  = NowPlayingTitle "A".
Proof.
  apply (nowplaying_after_play Demo.env Demo.alice "A" Demo.empty 7
           (Demo.track "A") (Demo.source_of "A") "A"); try reflexivity.
  discriminate.
Defined.

(** ** Loading opus *)

Lemma try_opus_paths_spec load_opus paths :
  match try_opus_paths load_opus paths with
  | (true, out) =>
      ∃ before p after,
        omap id paths = before ++ p :: after
        ∧ Forall (λ x, load_opus (Some x) = false) before
        ∧ load_opus (Some p) = true
        ∧ out = (FailedFrom <$> before) ++ [LoadedFrom p]
  | (false, out) =>
      Forall (λ x, load_opus (Some x) = false) (omap id paths)
      ∧ out = FailedFrom <$> omap id paths
  end.
Proof.
  induction paths as [|[p|] paths IH]; simpl.
  - split; [constructor|done].
  - destruct (load_opus (Some p)) eqn:Hp.
    + exists [], p, (omap id paths). split_and!; try done.
    + destruct (try_opus_paths load_opus paths) as [[|] out].
      * destruct IH as (before & p' & after & Hcands & Hfail & Hp' & ->).
        exists (p :: before), p', after. split_and!; try done.
        -- simpl. f_equal. exact Hcands.
        -- by constructor.
      * destruct IH as [Hfail ->]. split; [by constructor|done].
  - done.
Qed.

(** X20: [load_opus_library] returns [True] exactly when one of its
    named candidates loads or the final attempt without a path does; a
    candidate that [find_library] did not find is not tried. *)
Theorem load_opus_library_succeeds_iff load_opus found :
  (load_opus_library load_opus found).1 = true
  ↔ (∃ p, Some p ∈ opus_paths found ∧ load_opus (Some p) = true)
    ∨ load_opus None = true.
Proof.
  unfold load_opus_library.
  pose proof (try_opus_paths_spec load_opus (opus_paths found)) as Hspec.
  assert (Hin : ∀ p, p ∈ omap id (opus_paths found) ↔ Some p ∈ opus_paths found).
  { intros p. rewrite list_elem_of_omap. split.
    - intros (x & Hx & Hid). simpl in Hid. by subst.
    - intros Hp. by exists (Some p). }
  destruct (try_opus_paths load_opus (opus_paths found)) as [[|] out].
  - destruct Hspec as (before & p & after & Hcands & _ & Hp & _).
    simpl. split; [intros _|done]. left. exists p. split; [|done].
    apply Hin. rewrite Hcands. apply elem_of_app. right. by left.
  - destruct Hspec as [Hfail _].
    destruct (load_opus None) eqn:Hd; simpl.
    + split; [by right|done].
    + split; [done|]. intros [(p & Hp & Hload)|?]; [|done].
      apply Hin in Hp. rewrite Forall_forall in Hfail.
      specialize (Hfail p Hp). congruence.
Qed.

(** X21: the search stops at the first candidate that loads: when the
    function reports a library loaded from [p], every candidate before
    [p] was tried and failed and nothing was tried after it; and the
    attempt without a path is made only after every candidate failed. *)
Theorem load_opus_library_stops_at_first load_opus found :
  let cands := omap id (opus_paths found) in
  let out := (load_opus_library load_opus found).2 in
  (∀ p, LoadedFrom p ∈ out →
     ∃ before after,
       cands = before ++ p :: after
       ∧ Forall (λ x, load_opus (Some x) = false) before
       ∧ load_opus (Some p) = true
       ∧ out = (FailedFrom <$> before) ++ [LoadedFrom p])
  ∧ (LoadedDefault ∈ out ∨ FailedDefault ∈ out →
     Forall (λ x, load_opus (Some x) = false) cands).
Proof.
  intros cands out. subst out. unfold load_opus_library.
  pose proof (try_opus_paths_spec load_opus (opus_paths found)) as Hspec.
  fold cands in Hspec. clearbody cands.
  assert (Hno : ∀ (l : list string) (x : OpusPrint),
             x ∈ FailedFrom <$> l → ∃ p, x = FailedFrom p).
  { intros l x (p & -> & _)%list_elem_of_fmap. by exists p. }
  destruct (try_opus_paths load_opus (opus_paths found)) as [[|] out].
  - destruct Hspec as (before & p0 & after & Hcands & Hfail & Hp0 & ->).
    simpl. split.
    + intros p [Hin|Hin]%elem_of_app.
      * apply Hno in Hin as [? ?]. done.
      * apply list_elem_of_singleton in Hin as [= ->]. by exists before, after.
    + intros [[Hin|Hin]%elem_of_app|[Hin|Hin]%elem_of_app];
        try (apply Hno in Hin as [? ?]; done);
        apply list_elem_of_singleton in Hin; done.
  - destruct Hspec as [Hfail ->].
    destruct (load_opus None); simpl; (split; [|done]);
      intros p [Hin|Hin]%elem_of_app;
      try (apply Hno in Hin as [? ?]; done);
      apply list_elem_of_singleton in Hin; done.
Qed.

Lemma load_opus_library_stops_at_first_witness :
  let load_opus := λ p, bool_decide (p = Some "libopus.so"%string) in
  ∃ before after,
    omap id (opus_paths None) = before ++ "libopus.so"%string :: after
    ∧ Forall (λ x, load_opus (Some x) = false) before
    ∧ load_opus (Some "libopus.so"%string) = true
    ∧ (load_opus_library load_opus None).2
      = (FailedFrom <$> before) ++ [LoadedFrom "libopus.so"].
Proof.
  intros load_opus.
  apply (proj1 (load_opus_library_stops_at_first load_opus None)).
  vm_compute. repeat constructor.
Defined.

(** ** More on how the commands compose *)

(** X22: [/stop] does not wedge the bot.  When the bot was connected
    when [/stop] arrived, opus is loaded and the bot can join the
    channel of the user, a [/play] after the [/stop], for a song that
    resolves, connects again to that channel and starts that song, with
    nothing left pending from before.  When the join fails instead, the
    bot stays disconnected, nothing is started and the song waits in
    the queue. *)
Theorem play_after_stop_restarts env i query w c d src :
  opus_is_loaded env = true →
  is_Some (voice_clients w !! guild i) →
  user_voice i = Some c →
  extract_info env (search_query query) ≫= first_entry = Some d →
  YTDLSource.from_url env (url (make_song i query d)) = Some src →
  let w1 := (stop i w).1 in
  (can_join env (guild i) c = true →
   is_playing (guild i) (play env i query w1).1 = true
   ∧ current (guild i) (play env i query w1).1 = Some src
   ∧ pending (guild i) (play env i query w1).1 = []
   ∧ VoiceClient.channel <$> voice_clients (play env i query w1).1 !! guild i
     = Some c
   ∧ started (play env i query w1).2 = [make_song i query d]
   ∧ sources_played (play env i query w1).2 = [src])
  ∧ (can_join env (guild i) c = false →
     voice_clients (play env i query w1).1 !! guild i = None
     ∧ pending (guild i) (play env i query w1).1 = [make_song i query d]
     ∧ sources_played (play env i query w1).2 = []
     ∧ last (play env i query w1).2
       = Some (EditResponse (MsgCannotProcess query))).
Proof.
  intros Hopus [vc Hvc] Hv Hd Hsrc w1.
  assert (Hvc1 : voice_clients w1 !! guild i = None).
  { unfold w1. rewrite (stop_connected i w vc Hvc). simpl.
    by rewrite lookup_delete_eq. }
  assert (Hidle : is_playing (guild i) w1 = false).
  { unfold is_playing. by rewrite Hvc1. }
  assert (Hq : pending (guild i) w1 = []) by apply (pending_after_stop i w vc Hvc).
  destruct (play_channel env i query w1 c d Hv Hd) as [Hch Hfail].
  split.
  - intros Hjoin.
    destruct (play_when_idle env i query w1 c d src)
      as (? & ? & _ & ? & ? & ?); try done.
    split_and!; try done. by apply Hch.
  - intros Hjoin. destruct (Hfail Hjoin) as (Hv' & Hq' & ? & ?).
    { by rewrite Hvc1. }
    split_and!; try done.
    + by rewrite Hv'.
    + by rewrite Hq', Hq.
Qed.

Lemma play_after_stop_restarts_witness :
  let w1 := (stop Demo.alice two_guilds).1 in
  let closed := {| extract_info := Demo.extract; opus_is_loaded := true;
                   can_join := λ _ _, false |} in
  (is_playing 1 (play Demo.env Demo.alice "C" w1).1 = true
   ∧ current 1 (play Demo.env Demo.alice "C" w1).1 = Some (Demo.source_of "C")
   ∧ pending 1 (play Demo.env Demo.alice "C" w1).1 = []
   ∧ VoiceClient.channel
       <$> voice_clients (play Demo.env Demo.alice "C" w1).1 !! 1 = Some 7
   ∧ started (play Demo.env Demo.alice "C" w1).2
     = [make_song Demo.alice "C" (Demo.track "C")]
   ∧ sources_played (play Demo.env Demo.alice "C" w1).2
     = [Demo.source_of "C"])
  ∧ (voice_clients (play closed Demo.alice "C" w1).1 !! 1 = None
     ∧ pending 1 (play closed Demo.alice "C" w1).1
       = [make_song Demo.alice "C" (Demo.track "C")]
     ∧ sources_played (play closed Demo.alice "C" w1).2 = []
     ∧ last (play closed Demo.alice "C" w1).2
       = Some (EditResponse (MsgCannotProcess "C"))).
Proof.
  intros w1 closed. split.
  - apply (proj1 (play_after_stop_restarts Demo.env Demo.alice "C" two_guilds 7
                    (Demo.track "C") (Demo.source_of "C")
                    eq_refl (ex_intro _ _ eq_refl) eq_refl eq_refl eq_refl)).
    reflexivity.
  - apply (proj2 (play_after_stop_restarts closed Demo.alice "C" two_guilds 7
                    (Demo.track "C") (Demo.source_of "C")
                    eq_refl (ex_intro _ _ eq_refl) eq_refl eq_refl eq_refl)).
    reflexivity.
Defined.

(** X23: the last reply of a [/play] whose extraction succeeded and
    which got past the join (the bot was in the channel of the user or
    could join it) depends only on whether a stream was playing when
    the command arrived: "added to queue" if one was, "now playing" if
    none was, whatever [play_next_song] then made of the song.  When
    the join fails, the last reply is that the query cannot be
    processed. *)
Theorem play_reply_depends_on_playing env i query w c d :
  user_voice i = Some c →
  extract_info env (search_query query) ≫= first_entry = Some d →
  last (play env i query w).2
  = Some (EditResponse
            (if can_join env (guild i) c
                || bool_decide (VoiceClient.channel <$> voice_clients w !! guild i
                                = Some c)
             then if is_playing (guild i) w
                  then MsgAddedToQueue (title (make_song i query d))
                  else MsgNowPlaying (title (make_song i query d))
             else MsgCannotProcess query)).
Proof.
  intros Hv Hd. unfold play. rewrite Hv, Hd.
  set (w2 := set_queue _ _ _).
  assert (Hp2 : is_playing (guild i) w2 = is_playing (guild i) w).
  { unfold w2. by rewrite is_playing_set_queue, is_playing_ensure_queue. }
  assert (Hvc2 : voice_clients w2 = voice_clients w).
  { unfold w2, ensure_queue. simpl. by destruct (music_queues w !! guild i). }
  pose proof (ensure_connected_Some env (guild i) c w2) as Hsome.
  pose proof (ensure_connected_None env (guild i) c w2) as Hnone.
  rewrite Hvc2 in Hnone.
  destruct (ensure_connected env (guild i) c w2) as [[w3|] conn]; simpl in *.
  - assert (Hok : can_join env (guild i) c
                  || bool_decide (VoiceClient.channel
                                    <$> voice_clients w !! guild i = Some c)
                  = true).
    { destruct (can_join env (guild i) c) eqn:Hj; [done|]. simpl.
      apply bool_decide_eq_true.
      destruct (decide (VoiceClient.channel <$> voice_clients w !! guild i
                        = Some c)) as [|Hne]; [done|].
      destruct Hnone as [_ Hnone]. by specialize (Hnone (conj eq_refl Hne)). }
    rewrite Hok. destruct (Hsome w3 eq_refl) as (_ & Hp3 & _).
    rewrite Hp3, Hp2. destruct (is_playing (guild i) w); simpl.
    + by rewrite !app_comm_cons, last_snoc.
    + destruct (play_next_song env (guild i) w3) as [w4 evs]. simpl.
      by rewrite !app_comm_cons, !app_assoc, last_snoc.
  - destruct Hnone as [Hnone _]. destruct (Hnone eq_refl) as [-> Hne].
    rewrite bool_decide_eq_false_2 by done. simpl.
    by rewrite !app_comm_cons, last_snoc.
Qed.

Lemma play_reply_depends_on_playing_witness :
  let env := {| extract_info := Demo.extract; opus_is_loaded := false;
     can_join := λ _ _, true |} in
  last (play env Demo.alice "C" (Demo.connected [])).2
  = Some (EditResponse
            (MsgNowPlaying (title (make_song Demo.alice "C" (Demo.track "C"))))).
Proof.
  apply (play_reply_depends_on_playing
           {| extract_info := Demo.extract; opus_is_loaded := false;
     can_join := λ _ _, true |}
           Demo.alice "C" (Demo.connected []) 7 (Demo.track "C"));
    reflexivity.
Defined.

Lemma play_next_from_keeps_entry env g q : ∀ w,
  is_Some (music_queues w !! g) →
  is_Some (music_queues (play_next_from env g q w).1 !! g).
Proof.
  induction q as [|s rest IH]; intros w Hq; [done|]. simpl.
  destruct (voice_clients w !! g) as [vc|]; [|done].
  destruct (YTDLSource.from_url env (url s)).
  - destruct (negb (opus_is_loaded env)); [|destruct (VoiceClient.is_playing vc)];
      simpl; by rewrite lookup_insert_eq.
  - destruct rest as [|s' rest'].
    + simpl. by rewrite lookup_insert_eq.
    + specialize (IH (set_queue g (s' :: rest') w)).
      destruct (play_next_from env g (s' :: rest') (set_queue g (s' :: rest') w)).
      simpl in *. apply IH. by rewrite lookup_insert_eq.
Qed.

(** X24: the entry of a guild in [music_queues] is created by the first
    [/play] of a user who is in a voice channel, whether or not the
    query resolves, and it is there again after the bot was removed
    from the guild and a user asks for a song. *)
Theorem play_creates_queue_entry env i query w c :
  user_voice i = Some c →
  is_Some (music_queues (play env i query w).1 !! guild i)
  ∧ music_queues (on_guild_remove (guild i) w) !! guild i = None
  ∧ is_Some (music_queues
               (play env i query (on_guild_remove (guild i) w)).1 !! guild i).
Proof.
  intros Hv.
  assert (H : ∀ w, is_Some (music_queues (play env i query w).1 !! guild i)).
  { clear w. intros w. unfold play. rewrite Hv.
    assert (Hq1 : is_Some (music_queues (ensure_queue (guild i) w) !! guild i)).
    { unfold ensure_queue. destruct (music_queues w !! guild i) eqn:Hq.
      - by rewrite Hq.
      - simpl. by rewrite lookup_insert_eq. }
    destruct (extract_info env (search_query query) ≫= first_entry) as [d|];
      [|done].
    set (w2 := set_queue _ _ _).
    assert (Hq2 : is_Some (music_queues w2 !! guild i)).
    { unfold w2. simpl. by rewrite lookup_insert_eq. }
    pose proof (ensure_connected_Some env (guild i) c w2) as Hsome.
    destruct (ensure_connected env (guild i) c w2) as [[w3|] conn]; [|done].
    destruct (Hsome w3 eq_refl) as (_ & _ & _ & _ & Hmq & _).
    assert (Hq3 : is_Some (music_queues w3 !! guild i)) by by rewrite Hmq.
    destruct (negb (is_playing (guild i) w3)); [|done].
    pose proof (play_next_from_keeps_entry env (guild i) (pending (guild i) w3)
                  w3 Hq3) as Hq4.
    unfold play_next_song.
    by destruct (play_next_from env (guild i) (pending (guild i) w3) w3). }
  split_and!; [apply H| |apply H].
  unfold on_guild_remove. simpl. apply lookup_delete_eq.
Qed.

Lemma play_creates_queue_entry_witness :
  is_Some (music_queues
             (play Demo.env Demo.alice "https://nowhere/x" Demo.empty).1 !! 1)
  ∧ music_queues (on_guild_remove 1 Demo.empty) !! 1 = None
  ∧ is_Some (music_queues
               (play Demo.env Demo.alice "https://nowhere/x"
                  (on_guild_remove 1 Demo.empty)).1 !! 1).
Proof.
  apply (play_creates_queue_entry Demo.env Demo.alice "https://nowhere/x"
           Demo.empty 7).
  reflexivity.
Defined.
